(** * RLP prefix parsing and scalar decoding (package [rlp], file rlp/parse.go)

  A shallow embedding of [BeInt], [ParsePrefix], [U64], [U256], [ParseHash]
  and [ensureEnoughSize], together with the part of Go's semantics they
  rely on: 64-bit [int] and [uint64] arithmetic, indexing and slicing of
  [[]byte] with their run-time panics, and a store of byte arrays for the
  one function that writes ([ParseHash]). *)

From Stdlib Require Import ZArith List Lia.
From Stdlib Require Import Strings.Byte.
From stdpp Require Import base decidable option numbers list gmap.

Local Open Scope Z_scope.

(** ** Go machine integers *)

Module GoInt.

(** [int] is the 64-bit signed integer of the 64-bit Go ports: every
    arithmetic result is reduced to two's complement on 64 bits. *)
Definition min_int : Z := - 2 ^ 63.
Definition max_int : Z := 2 ^ 63 - 1.

Definition wrap (z : Z) : Z := (z + 2 ^ 63) mod 2 ^ 64 - 2 ^ 63.

Definition add (a b : Z) : Z := wrap (a + b).
Definition sub (a b : Z) : Z := wrap (a - b).
Definition shl (a n : Z) : Z := wrap (Z.shiftl a n).
Definition or (a b : Z) : Z := Z.lor a b.

Definition in_range (z : Z) : Prop := min_int <= z <= max_int.

(** [uint64]: results are reduced modulo 2^64. *)
Definition wrap_u64 (z : Z) : Z := z mod 2 ^ 64.
Definition shl_u64 (a n : Z) : Z := wrap_u64 (Z.shiftl a n).

(** The runtime never hands out an object of more than 2^48 bytes
    (runtime.maxAlloc on the 64-bit ports), which bounds every [len] and
    [cap]. *)
Definition max_alloc : Z := 2 ^ 48.

End GoInt.

(** ** Outcomes of a Go call: it returns, or it panics *)

Inductive run (A : Type) : Type :=
| Done (a : A)
| Panics.
Arguments Done {A} a.
Arguments Panics {A}.

#[global] Instance run_ret : MRet run := fun A a => Done a.
#[global] Instance run_bind : MBind run := fun A B f m =>
match m with
| Done a => f a
| Panics => Panics
end.

(** ** Byte slices as a reader sees them *)

Module Slice.

(** What a function that only reads can observe of a [[]byte]: the cells
    of its backing array from the slice's first element up to its
    capacity, and its length.  [b[i]] is checked against the length,
    [b[lo:hi]] against the capacity. *)
Record bytes : Type := Bytes { cells : list byte; len : Z }.

Definition cap (b : bytes) : Z := Z.of_nat (length (cells b)).

(** A slice whose length equals its capacity, such as a literal. *)
Definition of_list (l : list byte) : bytes := Bytes l (Z.of_nat (length l)).

Definition wf (b : bytes) : Prop :=
  0 <= len b <= cap b /\ cap b <= GoInt.max_alloc.

(** uint/int conversion of a byte. *)
Definition byte_val (x : byte) : Z := Z.of_N (Byte.to_N x).

(** [b[i]]; index out of range panics. *)
Definition index (b : bytes) (i : Z) : run byte :=
  if (0 <=? i) && (i <? len b) then
    match cells b !! Z.to_nat i with
    | Some x => Done x
    | None => Panics
    end
  else Panics.

(** The [n] cells that start at offset [pos]. *)
Definition window (b : bytes) (pos n : Z) : list byte :=
  take (Z.to_nat n) (drop (Z.to_nat pos) (cells b)).

(** The elements of [b[lo:hi]]; slice bounds out of range panic. *)
Definition range (b : bytes) (lo hi : Z) : run (list byte) :=
  if (0 <=? lo) && (lo <=? hi) && (hi <=? cap b) then Done (window b lo (hi - lo))
  else Panics.

End Slice.

(** ** The store of byte arrays, and slices as values *)

Module Mem.
Import Slice.

(** Allocated byte arrays by address.  A slice value is a pointer into
    one of them ([base], [off]) with a length and a capacity; the nil
    slice has no array.  Two slices with the same [base] share storage. *)
Abbreviation heap := (gmap positive (list byte)).

Record slice : Type := MkSlice { base : option positive; off : Z; slen : Z; scap : Z }.

Definition nil : slice := MkSlice None 0 0 0.

Definition array (h : heap) (s : slice) : list byte :=
  match base s with
  | Some l => default [] (h !! l)
  | None => []
  end.

(** The slice as its readers see it. *)
Definition view (h : heap) (s : slice) : bytes :=
  Bytes (take (Z.to_nat (scap s)) (drop (Z.to_nat (off s)) (array h s))) (slen s).

(** The [len(s)] elements of [s]. *)
Definition elems (h : heap) (s : slice) : list byte :=
  take (Z.to_nat (slen s)) (cells (view h s)).

(** A slice value that the program can hold in store [h]. *)
Definition valid (h : heap) (s : slice) : Prop :=
  0 <= slen s <= scap s /\ scap s <= GoInt.max_alloc /\
  match base s with
  | Some l => exists a, h !! l = Some a /\
                        0 <= off s /\ off s + scap s <= Z.of_nat (length a)
  | None => scap s = 0
  end.

(** [make([]byte, size)]: a fresh zeroed array; a negative size panics. *)
Definition make (h : heap) (size : Z) : run (heap * slice) :=
  if size <? 0 then Panics
  else
    let l := fresh (dom h) in
    Done (<[l := replicate (Z.to_nat size) x00]> h, MkSlice (Some l) 0 size size).

(** [s[lo:hi]]: same array, checked against the capacity; under the check
    neither [hi - lo] nor [cap(s) - lo] can overflow. *)
Definition reslice (s : slice) (lo hi : Z) : run slice :=
  if (0 <=? lo) && (lo <=? hi) && (hi <=? scap s) then
    Done (MkSlice (base s) (off s + lo) (hi - lo) (scap s - lo))
  else Panics.

(** [copy(dst, src)]: the first [min(len(dst), len(src))] elements of
    [src], read before any is written (the two may overlap), overwrite
    the same number of elements of [dst]; the count is returned. *)
Definition copy (h : heap) (dst src : slice) : heap * Z :=
  let n := Z.min (slen dst) (slen src) in
  let bs := take (Z.to_nat n) (elems h src) in
  match base dst with
  | Some l =>
    match h !! l with
    | Some a => (<[l := list_inserts (Z.to_nat (off dst)) bs a]> h, n)
    | None => (h, n)
    end
  | None => (h, n)
  end.

End Mem.

Module rlp.
Import Slice.

(** The errors built with [fmt.Errorf], one constructor per call site
    and message; the formatted arguments are kept as data. *)
Inductive error : Type :=
| ErrLeadingZeros (window : list byte)
    (* "integer encoding for RLP must not have leading zeros: %x" *)
| ErrU64NotString
    (* "uint64 must be a string, not isList" *)
| ErrUnexpectedEnd
    (* "unexpected end of payload" *)
| ErrU64TooLong (dataLen : Z)
    (* "uint64 must not be more than 8 bytes long, got %d" *)
| ErrU256NotString
    (* "uint256 must be a string, not list" *)
| ErrU256TooLong (dataLen : Z)
    (* "uint256 must not be more than 8 bytes long, got %d" *)
| ErrHashLen (inner : error)
    (* "%s: hash len: %w" *)
| ErrHashNotString
    (* "%s: hash must be a string, not list" *)
| ErrHashUnexpectedEnd
    (* "%s: unexpected end of payload after hash" *)
| ErrHashNot32.
    (* "%s: hash must be 32 bytes long" *)

(** The error taxonomy of the specification, and the kind of each error;
    a wrapped error ([%w]) keeps the kind of the error it wraps. *)
Inductive error_kind : Type :=
| NonCanonicalInteger
| WrongElementKind
| UnexpectedEndOfPayload
| IntegerTooLarge
| InvalidHashLength.

Fixpoint kind (e : error) : error_kind :=
  match e with
  | ErrLeadingZeros _ => NonCanonicalInteger
  | ErrU64NotString | ErrU256NotString | ErrHashNotString => WrongElementKind
  | ErrUnexpectedEnd | ErrHashUnexpectedEnd => UnexpectedEndOfPayload
  | ErrU64TooLong _ | ErrU256TooLong _ => IntegerTooLarge
  | ErrHashNot32 => InvalidHashLength
  | ErrHashLen inner => kind inner
  end.

(** [length > 0 && payload[pos] == 0], with the short circuit of [&&]. *)
Definition leading_zero (payload : bytes) (pos length : Z) : run bool :=
  if length >? 0 then
    b ← index payload pos; Done (byte_val b =? 0)
  else Done false.

(** The loop bodies [r = (r << 8) | int(b)] of [BeInt] and
    [r = (r << 8) | uint64(b)] of [U64]. *)
Definition int_step (r : Z) (b : byte) : Z := GoInt.or (GoInt.shl r 8) (byte_val b).
Definition u64_step (r : Z) (b : byte) : Z := Z.lor (GoInt.shl_u64 r 8) (byte_val b).

(** [BeInt]: the loop runs over [payload[pos:pos+length]]. *)
Definition BeInt (payload : bytes) (pos length : Z) : run (Z * option error) :=
  lz ← leading_zero payload pos length;
  if (lz : bool) then
    w ← range payload pos (GoInt.add pos length);
    Done (0, Some (ErrLeadingZeros w))
  else
    w ← range payload pos (GoInt.add pos length);
    Done (fold_left int_step w 0, None).

(** [ParsePrefix]: the four named results, [err] being [None] for nil. *)
Definition ParsePrefix (payload : bytes) (pos : Z)
  : run (Z * Z * bool * option error) :=
  fb ← index payload pos;
  let first := byte_val fb in
  if first <? 128 then
    Done (pos, 1, false, None)
  else if first <? 184 then
    Done (GoInt.add pos 1, GoInt.sub first 128, false, None)
  else if first <? 192 then
    let beLen := GoInt.sub first 183 in
    let prefixLen := GoInt.add (GoInt.add pos 1) beLen in
    '(dataLen, err) ← BeInt payload (GoInt.add pos 1) beLen;
    Done (prefixLen, dataLen, false, err)
  else if first <? 248 then
    Done (GoInt.add pos 1, GoInt.sub first 192, true, None)
  else
    let beLen := GoInt.sub first 247 in
    let prefixLen := GoInt.add (GoInt.add pos 1) beLen in
    '(dataLen, err) ← BeInt payload (GoInt.add pos 1) beLen;
    Done (prefixLen, dataLen, true, err).

(** [U64]: results are (new position, value, err). *)
Definition U64 (payload : bytes) (pos : Z) : run (Z * Z * option error) :=
  '(prefixLen, dataLen, isList, err) ← ParsePrefix payload pos;
  match err with
  | Some e => Done (0, 0, Some e)
  | None =>
    if (isList : bool) then Done (0, 0, Some ErrU64NotString)
    else if GoInt.add prefixLen dataLen >=? len payload then
      Done (0, 0, Some ErrUnexpectedEnd)
    else if dataLen >? 8 then
      Done (0, 0, Some (ErrU64TooLong dataLen))
    else
      lz ← leading_zero payload prefixLen dataLen;
      if (lz : bool) then
        w ← range payload prefixLen (GoInt.add prefixLen dataLen);
        Done (0, 0, Some (ErrLeadingZeros w))
      else
        w ← range payload prefixLen (GoInt.add prefixLen dataLen);
        Done (GoInt.add prefixLen dataLen,
              fold_left u64_step w 0,
              None)
  end.

(** The big-endian unsigned value of a byte string, by
    [result = result*256 + byte]. *)
Definition be_step (r : Z) (b : byte) : Z := r * 256 + byte_val b.
Definition be_value (w : list byte) : Z := fold_left be_step w 0.

(** Modelled from the spec: [uint256.Int.SetBytes] belongs to the imported
    package github.com/holiman/uint256; section 4.3 step 6 has the payload
    window decoded as a big-endian unsigned integer.  [U256] calls it on
    windows of at most 32 bytes, so the 256-bit result is that value. *)
Definition SetBytes (w : list byte) : Z := be_value w mod 2 ^ 256.

(** [U256]: the integer behind [x] is threaded through; results are
    (value behind [x] afterwards, (new position, err)). *)
Definition U256 (payload : bytes) (pos : Z) (x : Z) : run (Z * (Z * option error)) :=
  '(prefixLen, dataLen, list, err) ← ParsePrefix payload pos;
  match err with
  | Some e => Done (x, (0, Some e))
  | None =>
    if (list : bool) then Done (x, (0, Some ErrU256NotString))
    else if GoInt.add prefixLen dataLen >? len payload then
      Done (x, (0, Some ErrUnexpectedEnd))
    else if dataLen >? 32 then
      Done (x, (0, Some (ErrU256TooLong dataLen)))
    else
      lz ← leading_zero payload prefixLen dataLen;
      if (lz : bool) then
        w ← range payload prefixLen (GoInt.add prefixLen dataLen);
        Done (x, (0, Some (ErrLeadingZeros w)))
      else
        w ← range payload prefixLen (GoInt.add prefixLen dataLen);
        Done (SetBytes w, (GoInt.add prefixLen dataLen, None))
  end.

(** [ensureEnoughSize]. *)
Definition ensureEnoughSize (h : Mem.heap) (in_ : Mem.slice) (size : Z)
  : run (Mem.heap * Mem.slice) :=
  if Mem.scap in_ <? size then Mem.make h size
  else s ← Mem.reslice in_ 0 size; Done (h, s).

(** [ParseHash]: results are the store afterwards and
    (returned slice, new position, err). *)
Definition ParseHash (h : Mem.heap) (payload : Mem.slice) (pos : Z) (hashbuf : Mem.slice)
  : run (Mem.heap * (Mem.slice * Z * option error)) :=
  let payloadLen := Mem.slen payload in
  '(prefixLen, dataLen, list, err) ← ParsePrefix (Mem.view h payload) pos;
  match err with
  | Some e => Done (h, (Mem.nil, 0, Some (ErrHashLen e)))
  | None =>
    if (list : bool) then Done (h, (Mem.nil, 0, Some ErrHashNotString))
    else if GoInt.add prefixLen dataLen >? payloadLen then
      Done (h, (Mem.nil, 0, Some ErrHashUnexpectedEnd))
    else if negb (dataLen =? 32) then
      Done (h, (Mem.nil, 0, Some ErrHashNot32))
    else
      '(h1, hashbuf1) ← ensureEnoughSize h hashbuf 32;
      src ← Mem.reslice payload prefixLen (GoInt.add prefixLen dataLen);
      let '(h2, _) := Mem.copy h1 hashbuf1 src in
      Done (h2, (hashbuf1, GoInt.add prefixLen dataLen, None))
  end.

End rlp.

(** ** A sample store

    Four arrays: a 33-byte encoding of a 32-byte string, a 32-byte scratch
    array, the one-byte encoding of the empty list, and a long-list header
    whose length byte is zero; and slices over them. *)

Module Sample.

Definition hash_bytes : list byte := replicate 32 x07.

Definition store : Mem.heap :=
  <[4%positive := [xf8; x00]]>
    (<[3%positive := [xc0]]>
       (<[2%positive := replicate 32 xff]>
          (<[1%positive := xa0 :: hash_bytes]> ∅))).

Definition element : Mem.slice := Mem.MkSlice (Some 1%positive) 0 33 33.
(** Like [make([]byte, 0, 32)]. *)
Definition scratch : Mem.slice := Mem.MkSlice (Some 2%positive) 0 0 32.
Definition empty_list : Mem.slice := Mem.MkSlice (Some 3%positive) 0 1 1.
Definition zero_length_list : Mem.slice := Mem.MkSlice (Some 4%positive) 0 2 2.

End Sample.

(** * Properties *)

Import Slice rlp.

(** ** Machine arithmetic *)

Section Arith.

Lemma wrap_id z : GoInt.in_range z -> GoInt.wrap z = z.
Proof.
  unfold GoInt.in_range, GoInt.min_int, GoInt.max_int, GoInt.wrap.
  intros Hz. rewrite Z.mod_small by lia. lia.
Qed.

Lemma wrap_range z : GoInt.in_range (GoInt.wrap z).
Proof.
  unfold GoInt.in_range, GoInt.min_int, GoInt.max_int, GoInt.wrap.
  pose proof (Z.mod_pos_bound (z + 2 ^ 63) (2 ^ 64)). lia.
Qed.

Lemma wrap_congr a b k : a = b + k * 2 ^ 64 -> GoInt.wrap a = GoInt.wrap b.
Proof.
  intros ->. unfold GoInt.wrap.
  replace (b + k * 2 ^ 64 + 2 ^ 63) with (b + 2 ^ 63 + k * 2 ^ 64) by ring.
  now rewrite Z.mod_add by lia.
Qed.

Lemma wrap_decomp z : exists k, GoInt.wrap z = z + k * 2 ^ 64.
Proof.
  exists (- ((z + 2 ^ 63) / 2 ^ 64)). unfold GoInt.wrap.
  rewrite Z.mod_eq by lia. ring.
Qed.

Lemma add_id a b : GoInt.in_range (a + b) -> GoInt.add a b = a + b.
Proof. apply wrap_id. Qed.

Lemma sub_id a b : GoInt.in_range (a - b) -> GoInt.sub a b = a - b.
Proof. apply wrap_id. Qed.

Lemma byte_val_range x : 0 <= byte_val x < 256.
Proof.
  unfold byte_val. pose proof (Byte.to_N_bounded x). lia.
Qed.

(** A value with eight zero low bits and a byte never carry. *)
Lemma lor_low_byte q b : 0 <= b < 256 -> Z.lor (q * 256) b = q * 256 + b.
Proof.
  intros Hb.
  assert (Hland : Z.land (q * 256) b = 0).
  { apply Z.bits_inj'. intros n Hn. rewrite Z.land_spec, Z.bits_0.
    destruct (Z.lt_ge_cases n 8) as [Hlt | Hge].
    - change 256 with (2 ^ 8). rewrite Z.mul_pow2_bits_low by lia. reflexivity.
    - replace (Z.testbit b n) with false; [apply andb_false_r |].
      symmetry. destruct (Z.eq_dec b 0) as [-> | Hnz]; [apply Z.bits_0 |].
      apply Z.bits_above_log2; [lia |].
      apply Z.log2_lt_pow2; [lia |].
      apply Z.lt_le_trans with (2 ^ 8); [simpl; lia |].
      apply Z.pow_le_mono_r; lia. }
  rewrite <- Z.lxor_lor by exact Hland.
  symmetry. apply Z.add_nocarry_lxor. exact Hland.
Qed.

(** One turn of the loop of [BeInt], up to wrap-around. *)
Lemma beint_step r b :
  0 <= b < 256 ->
  GoInt.or (GoInt.shl (GoInt.wrap r) 8) b = GoInt.wrap (r * 256 + b).
Proof.
  intros Hb. unfold GoInt.or, GoInt.shl.
  rewrite Z.shiftl_mul_pow2 by lia. change (2 ^ 8) with 256.
  destruct (wrap_decomp r) as [k Hk]. rewrite Hk.
  destruct (wrap_decomp ((r + k * 2 ^ 64) * 256)) as [k' Hk'].
  pose proof (wrap_range ((r + k * 2 ^ 64) * 256)) as Hr.
  rewrite Hk' in *.
  replace ((r + k * 2 ^ 64) * 256 + k' * 2 ^ 64)
    with ((r + k * 2 ^ 64 + k' * 2 ^ 56) * 256) in * by ring.
  rewrite lor_low_byte by exact Hb.
  rewrite <- (wrap_id ((r + k * 2 ^ 64 + k' * 2 ^ 56) * 256 + b)).
  - apply wrap_congr with (k := k * 256 + k'). ring.
  - unfold GoInt.in_range, GoInt.min_int, GoInt.max_int in *. lia.
Qed.

End Arith.

(** ** Reading a slice *)

Section Reading.

Lemma index_inv (b : bytes) (i : Z) (x : byte) :
  index b i = Done x -> 0 <= i < len b /\ cells b !! Z.to_nat i = Some x.
Proof.
  unfold index. destruct (0 <=? i) eqn:Hlo, (i <? len b) eqn:Hhi; simpl; try discriminate.
  destruct (cells b !! Z.to_nat i) eqn:Hc; [| discriminate].
  intros [= ->]. split; [lia | reflexivity].
Qed.

Lemma index_in_bounds (b : bytes) (i : Z) :
  wf b -> 0 <= i < len b -> exists x, index b i = Done x /\ cells b !! Z.to_nat i = Some x.
Proof.
  intros [Hlen _] Hi. unfold index, cap in *.
  replace (0 <=? i) with true by lia. replace (i <? len b) with true by lia. simpl.
  destruct (lookup_lt_is_Some_2 (cells b) (Z.to_nat i)) as [x Hx]; [lia |].
  exists x. now rewrite Hx.
Qed.

Lemma range_in_bounds (b : bytes) (lo hi : Z) :
  0 <= lo <= hi -> hi <= cap b ->
  range b lo hi = Done (window b lo (hi - lo)).
Proof.
  intros Hlo Hhi. unfold range.
  replace (0 <=? lo) with true by lia. replace (lo <=? hi) with true by lia.
  replace (hi <=? cap b) with true by lia. reflexivity.
Qed.

Lemma range_inv (b : bytes) (lo hi : Z) (w : list byte) :
  range b lo hi = Done w ->
  0 <= lo <= hi /\ hi <= cap b /\ w = window b lo (hi - lo).
Proof.
  unfold range.
  destruct (0 <=? lo) eqn:H1, (lo <=? hi) eqn:H2, (hi <=? cap b) eqn:H3;
    simpl; try discriminate.
  intros [= <-]. repeat split; lia.
Qed.

(** The first element of a non-empty window is the element at its start. *)
Lemma window_head (b : bytes) (pos n : Z) (x : byte) :
  0 <= pos -> 0 < n -> cells b !! Z.to_nat pos = Some x ->
  exists t, window b pos n = x :: t.
Proof.
  intros Hpos Hn Hx. unfold window.
  destruct (drop (Z.to_nat pos) (cells b)) as [| y t] eqn:Hd.
  - assert (Hnone : drop (Z.to_nat pos) (cells b) !! 0%nat = None) by now rewrite Hd.
    rewrite lookup_drop, Nat.add_0_r in Hnone. congruence.
  - assert (Hy : drop (Z.to_nat pos) (cells b) !! 0%nat = Some y) by now rewrite Hd.
    rewrite lookup_drop, Nat.add_0_r in Hy. assert (y = x) as -> by congruence.
    destruct (Z.to_nat n) as [| m] eqn:Hm; [lia |]. simpl. eauto.
Qed.

End Reading.

(** ** The accumulation loops *)

Section Loops.

Lemma int_loop_wrap (w : list byte) (r : Z) :
  fold_left int_step w (GoInt.wrap r) = GoInt.wrap (fold_left be_step w r).
Proof.
  revert r. induction w as [| b w IH]; intros r; simpl; [reflexivity |].
  unfold int_step at 2. rewrite beint_step by apply byte_val_range.
  apply IH.
Qed.

Lemma be_loop_bounds (w : list byte) (r : Z) :
  0 <= r ->
  r * 256 ^ Z.of_nat (length w) <= fold_left be_step w r
    < (r + 1) * 256 ^ Z.of_nat (length w).
Proof.
  revert r. induction w as [| b w IH]; intros r Hr.
  - simpl. lia.
  - cbn [fold_left length]. rewrite Nat2Z.inj_succ, Z.pow_succ_r by lia.
    pose proof (byte_val_range b) as Hb. unfold be_step at 2 4.
    specialize (IH (r * 256 + byte_val b) ltac:(lia)).
    assert (0 < 256 ^ Z.of_nat (length w)) by (apply Z.pow_pos_nonneg; lia).
    nia.
Qed.

Lemma be_value_bounds (w : list byte) :
  0 <= be_value w < 256 ^ Z.of_nat (length w).
Proof.
  pose proof (be_loop_bounds w 0 ltac:(lia)) as H. unfold be_value. lia.
Qed.

(** A window that starts with a non-zero byte is worth at least
    256^(length - 1). *)
Lemma be_value_lower (x : byte) (t : list byte) :
  byte_val x * 256 ^ Z.of_nat (length t) <= be_value (x :: t).
Proof.
  unfold be_value. cbn [fold_left]. unfold be_step at 2.
  rewrite Z.mul_0_l, Z.add_0_l.
  pose proof (byte_val_range x).
  pose proof (be_loop_bounds t (byte_val x) ltac:(lia)). lia.
Qed.

(** The loop of [BeInt] computes the big-endian value reduced to [int]. *)
Lemma int_loop_value (w : list byte) :
  fold_left int_step w 0 = GoInt.wrap (be_value w).
Proof.
  rewrite <- (wrap_id 0) at 1 by (unfold GoInt.in_range, GoInt.min_int, GoInt.max_int; lia).
  apply int_loop_wrap.
Qed.

Lemma int_loop_exact (w : list byte) :
  be_value w < 2 ^ 63 -> fold_left int_step w 0 = be_value w.
Proof.
  intros Hlt. rewrite int_loop_value. apply wrap_id.
  pose proof (be_value_bounds w).
  unfold GoInt.in_range, GoInt.min_int, GoInt.max_int. lia.
Qed.

End Loops.

(** ** [BeInt] *)

Section BeIntProps.

Variable payload : bytes.
Hypothesis Hwf : wf payload.

Lemma in_range_small z : - GoInt.max_alloc <= z <= 2 * GoInt.max_alloc -> GoInt.in_range z.
Proof.
  unfold GoInt.max_alloc, GoInt.in_range, GoInt.min_int, GoInt.max_int. lia.
Qed.

Lemma BeInt_zero_lead (pos length : Z) (b : byte) :
  0 <= pos -> 0 < length -> pos + length <= len payload ->
  index payload pos = Done b -> byte_val b = 0 ->
  BeInt payload pos length = Done (0, Some (ErrLeadingZeros (window payload pos length))).
Proof.
  intros Hpos Hlen Hfit Hb Hz. destruct Hwf as [Hl Hc].
  unfold BeInt, leading_zero. replace (length >? 0) with true by lia.
  rewrite Hb. cbn. rewrite Hz. cbn.
  rewrite add_id by (apply in_range_small; lia).
  rewrite range_in_bounds by lia. cbn.
  now replace (pos + length - pos) with length by lia.
Qed.

Lemma BeInt_value (pos length : Z) :
  0 <= pos -> 0 <= length -> pos + length <= len payload ->
  (0 < length -> forall b, index payload pos = Done b -> byte_val b <> 0) ->
  BeInt payload pos length = Done (GoInt.wrap (be_value (window payload pos length)), None).
Proof.
  intros Hpos Hlen Hfit Hnz. destruct Hwf as [Hl Hc].
  assert (Hlz : leading_zero payload pos length = Done false).
  { unfold leading_zero. destruct (length >? 0) eqn:Hgt; [| reflexivity].
    destruct (index_in_bounds payload pos Hwf ltac:(lia)) as (x & Hx & _).
    rewrite Hx. cbn. f_equal. apply Z.eqb_neq. apply (Hnz ltac:(lia) x Hx). }
  unfold BeInt. rewrite Hlz. cbn.
  rewrite add_id by (apply in_range_small; lia).
  rewrite range_in_bounds by lia. cbn.
  replace (pos + length - pos) with length by lia.
  now rewrite int_loop_value.
Qed.

End BeIntProps.

(** C4 (as stated, refuted): an eight-byte window whose first byte has its top
    bit set is read successfully, but the [int] returned is negative: it is
    not the big-endian unsigned value of the window. *)
Lemma BeInt_eight_bytes_wrap :
  let payload := of_list [x80; x00; x00; x00; x00; x00; x00; x00] in
  BeInt payload 0 8 = Done (- 2 ^ 63, None) /\
  be_value (window payload 0 8) = 2 ^ 63 /\
  - 2 ^ 63 <> be_value (window payload 0 8).
Proof. vm_compute. repeat split; discriminate. Qed.

(** C4 (amended): when the window [pos, pos+length) lies within the buffer,
    [BeInt] returns an error exactly when [length > 0] and the byte at [pos]
    is zero; an empty window reads as 0; the call always returns; and a
    successful read returns the big-endian unsigned value of the window
    whenever that value is below 2^63. *)
Theorem BeInt_contract (payload : bytes) (pos length : Z) :
  wf payload -> 0 <= pos -> 0 <= length -> pos + length <= len payload ->
  ((exists v e, BeInt payload pos length = Done (v, Some e)) <->
     (0 < length /\ exists b, index payload pos = Done b /\ byte_val b = 0)) /\
  (length = 0 -> BeInt payload pos length = Done (0, None)) /\
  (exists r, BeInt payload pos length = Done r) /\
  (forall v, BeInt payload pos length = Done (v, None) ->
     be_value (window payload pos length) < 2 ^ 63 ->
     v = be_value (window payload pos length)).
Proof.
  intros Hwf Hpos Hlen Hfit.
  assert (Hcases :
    (0 < length /\ exists b, index payload pos = Done b /\ byte_val b = 0) \/
    (0 < length -> forall b, index payload pos = Done b -> byte_val b <> 0)).
  { destruct (Z.lt_ge_cases 0 length) as [Hgt | Hle]; [| right; lia].
    destruct (index_in_bounds payload pos Hwf ltac:(lia)) as (x & Hx & _).
    destruct (Z.eq_dec (byte_val x) 0) as [Hz | Hnz].
    - left. eauto.
    - right. intros _ b Hb. congruence. }
  destruct Hcases as [(Hgt & b & Hb & Hz) | Hnz].
  - pose proof (BeInt_zero_lead payload Hwf pos length b Hpos Hgt Hfit Hb Hz) as HB.
    rewrite HB. split; [split | split; [| split]].
    + intros _. eauto.
    + intros _. eauto.
    + lia.
    + eauto.
    + intros v [=].
  - pose proof (BeInt_value payload Hwf pos length Hpos Hlen Hfit Hnz) as HB.
    rewrite HB. split; [split | split; [| split]].
    + intros (v & e & [=]).
    + intros (Hgt & b & Hb & Hz). exfalso. now apply (Hnz Hgt b Hb).
    + intros ->. reflexivity.
    + eauto.
    + intros v [= <-] Hsmall. apply wrap_id.
      pose proof (be_value_bounds (window payload pos length)).
      unfold GoInt.in_range, GoInt.min_int, GoInt.max_int. lia.
Qed.

Lemma BeInt_contract_witness :
  let payload := of_list [x01; x02] in
  wf payload /\ 0 + 2 <= len payload /\ BeInt payload 0 2 = Done (258, None) /\
  258 = be_value (window payload 0 2).
Proof.
  assert (Hwf : wf (of_list [x01; x02])).
  { unfold wf, cap, GoInt.max_alloc. cbn. lia. }
  assert (Hfit : 0 + 2 <= len (of_list [x01; x02])) by (cbn; lia).
  assert (Hrun : BeInt (of_list [x01; x02]) 0 2 = Done (258, None)) by reflexivity.
  cbv zeta. split; [exact Hwf | split; [exact Hfit | split; [exact Hrun |]]].
  destruct (BeInt_contract (of_list [x01; x02]) 0 2 Hwf ltac:(lia) ltac:(lia) Hfit)
    as (_ & _ & _ & Hval).
  apply (Hval 258 Hrun). vm_compute. reflexivity.
Defined.

(** ** [ParsePrefix] *)

Section ParsePrefixProps.

Variable payload : bytes.
Hypothesis Hwf : wf payload.

Lemma BeInt_result_range (pos length v : Z) (e : option error) :
  BeInt payload pos length = Done (v, e) -> GoInt.in_range v.
Proof.
  unfold BeInt. destruct (leading_zero payload pos length) as [[|] |]; cbn;
    try discriminate;
    destruct (range payload pos (GoInt.add pos length)) as [w |]; cbn;
    try discriminate; intros [= <- <-].
  - unfold GoInt.in_range, GoInt.min_int, GoInt.max_int. lia.
  - rewrite int_loop_value. apply wrap_range.
Qed.

(** Where a returned header ends: at or after [pos], at most nine bytes on. *)
Lemma ParsePrefix_shape (pos p d : Z) (l : bool) (e : option error) :
  ParsePrefix payload pos = Done (p, d, l, e) ->
  0 <= pos < len payload /\ pos <= p <= pos + 9 /\ GoInt.in_range d.
Proof.
  unfold ParsePrefix. destruct (index payload pos) as [fb |] eqn:Hfb; [| discriminate].
  apply index_inv in Hfb as [Hpos _]. destruct Hwf as [Hl Hc].
  pose proof (byte_val_range fb) as Hb. cbn.
  assert (Hsmall : forall z, -256 <= z <= 256 -> GoInt.in_range z).
  { intros z Hz. unfold GoInt.in_range, GoInt.min_int, GoInt.max_int. lia. }
  unfold GoInt.max_alloc in Hc.
  assert (Hadd1 : GoInt.add pos 1 = pos + 1).
  { apply add_id. unfold GoInt.in_range, GoInt.min_int, GoInt.max_int. lia. }
  rewrite !Hadd1.
  destruct (byte_val fb <? 128) eqn:H1.
  { intros [= <- <- <- <-]. repeat split; try lia; apply Hsmall; lia. }
  destruct (byte_val fb <? 184) eqn:H2.
  { rewrite sub_id by (apply Hsmall; lia).
    intros [= <- <- <- <-]. repeat split; try lia; apply Hsmall; lia. }
  destruct (byte_val fb <? 192) eqn:H3.
  { rewrite sub_id by (apply Hsmall; lia).
    rewrite add_id by (unfold GoInt.in_range, GoInt.min_int, GoInt.max_int; lia).
    destruct (BeInt payload (pos + 1) (byte_val fb - 183)) as [[v e'] |] eqn:HB;
      cbn; [| discriminate].
    intros [= <- <- <- <-]. repeat split; try lia.
    all: apply (BeInt_result_range _ _ _ _ HB). }
  destruct (byte_val fb <? 248) eqn:H4.
  { rewrite sub_id by (apply Hsmall; lia).
    intros [= <- <- <- <-]. repeat split; try lia; apply Hsmall; lia. }
  rewrite sub_id by (apply Hsmall; lia).
  rewrite add_id by (unfold GoInt.in_range, GoInt.min_int, GoInt.max_int; lia).
  destruct (BeInt payload (pos + 1) (byte_val fb - 247)) as [[v e'] |] eqn:HB;
    cbn; [| discriminate].
  intros [= <- <- <- <-]. repeat split; try lia.
  all: apply (BeInt_result_range _ _ _ _ HB).
Qed.

(** A long header: [beLen] length bytes follow the first byte. *)
Lemma ParsePrefix_long (pos beLen : Z) (fb : byte) (isList : bool) :
  index payload pos = Done fb ->
  (isList = false /\ 184 <= byte_val fb < 192 /\ beLen = byte_val fb - 183) \/
  (isList = true /\ 248 <= byte_val fb /\ beLen = byte_val fb - 247) ->
  ParsePrefix payload pos =
    ('(dataLen, err) ← BeInt payload (pos + 1) beLen;
     Done (pos + 1 + beLen, dataLen, isList, err)).
Proof.
  intros Hfb Hcase. unfold ParsePrefix. rewrite Hfb. cbn.
  apply index_inv in Hfb as [Hpos _]. destruct Hwf as [Hl Hc].
  pose proof (byte_val_range fb) as Hb. unfold GoInt.max_alloc in Hc.
  assert (Hadd1 : GoInt.add pos 1 = pos + 1).
  { apply add_id. unfold GoInt.in_range, GoInt.min_int, GoInt.max_int. lia. }
  rewrite !Hadd1.
  destruct Hcase as [(-> & Hr & ->) | (-> & Hr & ->)].
  - replace (byte_val fb <? 128) with false by lia.
    replace (byte_val fb <? 184) with false by lia.
    replace (byte_val fb <? 192) with true by lia.
    rewrite sub_id by (unfold GoInt.in_range, GoInt.min_int, GoInt.max_int; lia).
    rewrite add_id by (unfold GoInt.in_range, GoInt.min_int, GoInt.max_int; lia).
    reflexivity.
  - replace (byte_val fb <? 128) with false by lia.
    replace (byte_val fb <? 184) with false by lia.
    replace (byte_val fb <? 192) with false by lia.
    replace (byte_val fb <? 248) with false by lia.
    rewrite sub_id by (unfold GoInt.in_range, GoInt.min_int, GoInt.max_int; lia).
    rewrite add_id by (unfold GoInt.in_range, GoInt.min_int, GoInt.max_int; lia).
    reflexivity.
Qed.

End ParsePrefixProps.

(** C3 (as stated, refuted): in the long-string regime the length field can be
    rejected.  On [0xB8, 0x00] the first byte is 184, the one length byte is
    zero, and [ParsePrefix] returns the leading-zeros error instead of
    yielding (headerEnd 2, payloadLength 0, string). *)
Lemma ParsePrefix_long_field_rejected :
  let payload := of_list [xb8; x00] in
  index payload 0 = Done xb8 /\ byte_val xb8 = 184 /\
  be_value (window payload 1 1) = 0 /\
  ParsePrefix payload 0 = Done (2, 0, false, Some (ErrLeadingZeros [x00])) /\
  ParsePrefix payload 0 <> Done (0 + 1 + (184 - 183), 0, false, None).
Proof. vm_compute. repeat split; discriminate. Qed.

(** C3 (amended): the byte [first] at an in-bounds position falls in exactly
    one of five ranges covering [0,256), and [ParsePrefix] answers by range:
    [0,128) gives (pos, 1, string); [128,184) gives (pos+1, first-128, string);
    [192,248) gives (pos+1, first-192, list); in [184,192) and [248,256), with
    beLen = first-183 resp. first-247 length bytes lying within the buffer, a
    zero first length byte gives the leading-zeros error, and otherwise the
    result is (pos+1+beLen, big-endian value of the length bytes, string resp.
    list) whenever that value is below 2^63. *)
Theorem ParsePrefix_regimes (payload : bytes) (pos : Z) (fb : byte) :
  wf payload ->
  index payload pos = Done fb ->
  let first := byte_val fb in
  0 <= first < 256 /\
  (first < 128 -> ParsePrefix payload pos = Done (pos, 1, false, None)) /\
  (128 <= first < 184 ->
     ParsePrefix payload pos = Done (pos + 1, first - 128, false, None)) /\
  (184 <= first < 192 ->
     let beLen := first - 183 in
     pos + 1 + beLen <= len payload ->
     forall lb, index payload (pos + 1) = Done lb ->
       (byte_val lb = 0 ->
          ParsePrefix payload pos =
            Done (pos + 1 + beLen, 0, false,
                  Some (ErrLeadingZeros (window payload (pos + 1) beLen)))) /\
       (byte_val lb <> 0 -> be_value (window payload (pos + 1) beLen) < 2 ^ 63 ->
          ParsePrefix payload pos =
            Done (pos + 1 + beLen, be_value (window payload (pos + 1) beLen),
                  false, None))) /\
  (192 <= first < 248 ->
     ParsePrefix payload pos = Done (pos + 1, first - 192, true, None)) /\
  (248 <= first ->
     let beLen := first - 247 in
     pos + 1 + beLen <= len payload ->
     forall lb, index payload (pos + 1) = Done lb ->
       (byte_val lb = 0 ->
          ParsePrefix payload pos =
            Done (pos + 1 + beLen, 0, true,
                  Some (ErrLeadingZeros (window payload (pos + 1) beLen)))) /\
       (byte_val lb <> 0 -> be_value (window payload (pos + 1) beLen) < 2 ^ 63 ->
          ParsePrefix payload pos =
            Done (pos + 1 + beLen, be_value (window payload (pos + 1) beLen),
                  true, None))).
Proof.
  intros Hwf Hfb first. pose proof (byte_val_range fb) as Hb. fold first in Hb.
  pose proof (index_inv _ _ _ Hfb) as [Hpos _].
  pose proof Hwf as [Hl Hc]. unfold GoInt.max_alloc in Hc.
  assert (Hin : forall z, - 2 ^ 62 <= z <= 2 ^ 62 -> GoInt.in_range z).
  { intros z Hz. unfold GoInt.in_range, GoInt.min_int, GoInt.max_int. lia. }
  assert (Hlong : forall beLen isList,
    (isList = false /\ 184 <= first < 192 /\ beLen = first - 183) \/
    (isList = true /\ 248 <= first /\ beLen = first - 247) ->
    pos + 1 + beLen <= len payload ->
    forall lb, index payload (pos + 1) = Done lb ->
      (byte_val lb = 0 ->
         ParsePrefix payload pos =
           Done (pos + 1 + beLen, 0, isList,
                 Some (ErrLeadingZeros (window payload (pos + 1) beLen)))) /\
      (byte_val lb <> 0 -> be_value (window payload (pos + 1) beLen) < 2 ^ 63 ->
         ParsePrefix payload pos =
           Done (pos + 1 + beLen, be_value (window payload (pos + 1) beLen),
                 isList, None))).
  { intros beLen isList Hcase Hfit lb Hlb.
    rewrite (ParsePrefix_long payload Hwf pos beLen fb isList Hfb Hcase).
    assert (0 < beLen) by (destruct Hcase as [(_ & ? & ->) | (_ & ? & ->)]; lia).
    split.
    - intros Hz.
      rewrite (BeInt_zero_lead payload Hwf (pos + 1) beLen lb) by (assumption || lia).
      reflexivity.
    - intros Hnz Hsmall.
      rewrite (BeInt_value payload Hwf (pos + 1) beLen) by
        (try lia; intros _ b Hb'; congruence).
      cbn. rewrite wrap_id; [reflexivity |].
      pose proof (be_value_bounds (window payload (pos + 1) beLen)).
      unfold GoInt.in_range, GoInt.min_int, GoInt.max_int. lia. }
  split; [exact Hb |].
  split; [| split; [| split; [| split]]].
  - intros H1. unfold ParsePrefix. rewrite Hfb. cbn. fold first.
    now replace (first <? 128) with true by lia.
  - intros H2. unfold ParsePrefix. rewrite Hfb. cbn. fold first.
    replace (first <? 128) with false by lia.
    replace (first <? 184) with true by lia.
    rewrite add_id, sub_id by (apply Hin; lia). reflexivity.
  - intros H3 beLen. apply Hlong. left. repeat split; lia.
  - intros H4. unfold ParsePrefix. rewrite Hfb. cbn. fold first.
    replace (first <? 128) with false by lia.
    replace (first <? 184) with false by lia.
    replace (first <? 192) with false by lia.
    replace (first <? 248) with true by lia.
    rewrite add_id, sub_id by (apply Hin; lia). reflexivity.
  - intros H5 beLen. apply Hlong. right. repeat split; lia.
Qed.

Lemma ParsePrefix_regimes_witness :
  let payload := of_list [xb8; x38] in
  wf payload /\ index payload 0 = Done xb8 /\ 184 <= byte_val xb8 < 192 /\
  index payload 1 = Done x38 /\ byte_val x38 <> 0 /\
  ParsePrefix payload 0 = Done (2, 56, false, None).
Proof.
  cbv zeta.
  assert (Hwf : wf (of_list [xb8; x38])).
  { unfold wf, cap, GoInt.max_alloc. cbn. lia. }
  assert (Hfb : index (of_list [xb8; x38]) 0 = Done xb8) by reflexivity.
  assert (Hlb : index (of_list [xb8; x38]) 1 = Done x38) by reflexivity.
  assert (Hr : 184 <= byte_val xb8 < 192) by (change (byte_val xb8) with 184; lia).
  assert (Hnz : byte_val x38 <> 0) by (vm_compute; discriminate).
  split; [exact Hwf | split; [exact Hfb | split; [exact Hr | split; [exact Hlb |
    split; [exact Hnz |]]]]].
  destruct (ParsePrefix_regimes (of_list [xb8; x38]) 0 xb8 Hwf Hfb)
    as (_ & _ & _ & Hlong & _).
  destruct (Hlong Hr ltac:(change (byte_val xb8) with 184; cbn; lia) x38 Hlb) as [_ Hok].
  exact (Hok Hnz ltac:(vm_compute; reflexivity)).
Defined.

(** C6 (violated by the code): an eight-byte length field whose first byte has
    its top bit set overflows [int] in [BeInt]; [ParsePrefix] returns without
    error and with a negative payload length. *)
Theorem ParsePrefix_negative_length :
  let payload := of_list [xbf; x80; x00; x00; x00; x00; x00; x00; x00] in
  ParsePrefix payload 0 = Done (9, - 2 ^ 63, false, None) /\ - 2 ^ 63 < 0.
Proof. vm_compute. split; reflexivity. Qed.

(** What follows from it: the scalar decoders pass their bounds checks with
    such a length and then panic on the slice expression. *)
Lemma U64_negative_length_panics :
  U64 (of_list [xbf; x80; x00; x00; x00; x00; x00; x00; x00]) 0 = Panics.
Proof. reflexivity. Qed.

(** ** The scalar decoders *)

Section EndOfPayload.

Variable payload : bytes.
Variables pos p d : Z.
Hypothesis Hprefix : ParsePrefix payload pos = Done (p, d, false, None).

(** [U64] compares with [>=]: a window that ends exactly at the end of the
    buffer is refused. *)
Lemma U64_end_check :
  U64 payload pos = Done (0, 0, Some ErrUnexpectedEnd) <->
  GoInt.add p d >= len payload.
Proof.
  unfold U64. rewrite Hprefix. cbn.
  destruct (GoInt.add p d >=? len payload) eqn:Hcmp.
  - split; [lia | reflexivity].
  - split; [| lia]. intros Hrun. exfalso.
    destruct (d >? 8); [discriminate |].
    destruct (leading_zero payload p d) as [[|] |]; cbn in Hrun; try discriminate;
      destruct (range payload p (GoInt.add p d)); cbn in Hrun; discriminate.
Qed.

(** [U256] compares with [>]. *)
Lemma U256_end_check (x : Z) :
  U256 payload pos x = Done (x, (0, Some ErrUnexpectedEnd)) <->
  GoInt.add p d > len payload.
Proof.
  unfold U256. rewrite Hprefix. cbn.
  destruct (GoInt.add p d >? len payload) eqn:Hcmp.
  - split; [lia | reflexivity].
  - split; [| lia]. intros Hrun. exfalso.
    destruct (d >? 32); [discriminate |].
    destruct (leading_zero payload p d) as [[|] |]; cbn in Hrun; try discriminate;
      destruct (range payload p (GoInt.add p d)); cbn in Hrun; discriminate.
Qed.

End EndOfPayload.

(** C1 (violated by the code, in [U64]): the one-byte buffer [0x05] holds a
    string element whose payload window [0,1) ends exactly at the end of the
    buffer, so headerEnd + payloadLength = 1 does not exceed the length 1;
    [U64] fails with "unexpected end of payload" all the same, where [U256]
    accepts the element. *)
Theorem U64_rejects_exact_fit :
  let payload := of_list [x05] in
  ParsePrefix payload 0 = Done (0, 1, false, None) /\
  ~ (0 + 1 > len payload) /\
  U64 payload 0 = Done (0, 0, Some ErrUnexpectedEnd) /\
  U256 payload 0 0 = Done (5, (1, None)).
Proof.
  cbv zeta. split; [reflexivity |]. split; [cbn; lia |].
  split; reflexivity.
Qed.

(** C2 (violated by the code): on the buffer [0x80], header end 1 plus payload
    length 0 reaches the buffer length 1 and [U64] fails with "unexpected end
    of payload"; it does not return value 0 and position 1. *)
Theorem U64_empty_string_at_end :
  U64 (of_list [x80]) 0 = Done (0, 0, Some ErrUnexpectedEnd) /\
  U64 (of_list [x80]) 0 <> Done (1, 0, None).
Proof. split; [reflexivity | discriminate]. Qed.

(** With one more byte behind the element the same encoding decodes to 0. *)
Lemma U64_empty_string_followed :
  U64 (of_list [x80; x00]) 0 = Done (1, 0, None).
Proof. reflexivity. Qed.

(** C5 (violated by the code): on [0x82, 0x00, 0x01] the end-of-payload
    comparison fires before the leading-zero check, and the error returned is
    of kind UnexpectedEndOfPayload, not NonCanonicalInteger. *)
Theorem U64_leading_zero_at_end :
  U64 (of_list [x82; x00; x01]) 0 = Done (0, 0, Some ErrUnexpectedEnd) /\
  kind ErrUnexpectedEnd = UnexpectedEndOfPayload /\
  kind ErrUnexpectedEnd <> NonCanonicalInteger.
Proof. split; [reflexivity | split; [reflexivity | discriminate]]. Qed.

(** With one more byte behind the element the leading zero is reported. *)
Lemma U64_leading_zero_followed :
  U64 (of_list [x82; x00; x01; x00]) 0 = Done (0, 0, Some (ErrLeadingZeros [x00; x01])) /\
  kind (ErrLeadingZeros [x00; x01]) = NonCanonicalInteger.
Proof. split; reflexivity. Qed.

(** ** Slices in the store *)

Section MemProps.

Lemma sub_window (a : list byte) (o c p n : nat) :
  (p + n <= c)%nat ->
  take n (drop p (take c (drop o a))) = take n (drop (o + p) a).
Proof.
  intros Hfit. apply list_eq. intros i.
  destruct (decide (i < n)%nat) as [Hi | Hi].
  - rewrite !lookup_take_lt by lia. rewrite !lookup_drop.
    rewrite lookup_take_lt by lia. rewrite lookup_drop. f_equal. lia.
  - rewrite !lookup_take_ge by lia. reflexivity.
Qed.

Lemma written_back (a bs : list byte) (o c n : nat) :
  length bs = n -> (n <= c)%nat -> (o + c <= length a)%nat ->
  take n (take c (drop o (list_inserts o bs a))) = bs.
Proof.
  intros Hlen Hn Hfit. apply list_eq. intros i.
  destruct (decide (i < n)%nat) as [Hi | Hi].
  - rewrite !lookup_take_lt by lia. rewrite lookup_drop.
    rewrite list_lookup_inserts by lia. f_equal. lia.
  - rewrite lookup_take_ge by lia. symmetry. apply lookup_ge_None_2. lia.
Qed.

Lemma view_valid (h : Mem.heap) (s : Mem.slice) :
  Mem.valid h s ->
  wf (Mem.view h s) /\ cap (Mem.view h s) = Mem.scap s /\ len (Mem.view h s) = Mem.slen s.
Proof.
  intros (Hlen & Hcap & Hbase).
  assert (Hc : cap (Mem.view h s) = Mem.scap s).
  { unfold cap, Mem.view, Mem.array. cbn.
    destruct (Mem.base s) as [l |].
    - destruct Hbase as (a & -> & Hoff & Hfit). cbn.
      rewrite length_take, length_drop. lia.
    - rewrite Hbase. reflexivity. }
  split; [| split; [exact Hc | reflexivity]].
  unfold wf. rewrite Hc. cbn. lia.
Qed.

End MemProps.

(** ** [ParseHash] *)

Section HashProps.

Variable h : Mem.heap.
Variables payload hashbuf : Mem.slice.
Variable pos : Z.

(** What the success path does with a 32-byte element that fits. *)
Lemma ParseHash_copy (p : Z) :
  Mem.valid h payload -> Mem.valid h hashbuf ->
  ParsePrefix (Mem.view h payload) pos = Done (p, 32, false, None) ->
  p + 32 <= Mem.slen payload ->
  let out :=
    if Mem.scap hashbuf <? 32 then Mem.MkSlice (Some (fresh (dom h))) 0 32 32
    else Mem.MkSlice (Mem.base hashbuf) (Mem.off hashbuf) 32 (Mem.scap hashbuf) in
  exists h',
    ParseHash h payload pos hashbuf = Done (h', (out, p + 32, None)) /\
    Mem.elems h' out = window (Mem.view h payload) p 32 /\
    length (Mem.elems h' out) = 32%nat /\
    (Mem.scap hashbuf < 32 -> forall l, l ∈ dom h -> h' !! l = h !! l) /\
    (32 <= Mem.scap hashbuf ->
       dom h' = dom h /\ forall l, Mem.base hashbuf <> Some l -> h' !! l = h !! l).
Proof.
  intros Hpay Hbuf Hprefix Hfit out.
  destruct (view_valid h payload Hpay) as (Hwf & Hcap & Hlen).
  destruct (ParsePrefix_shape _ Hwf _ _ _ _ _ Hprefix) as (Hpos & Hp & _).
  destruct Hpay as (Hpl & Hpc & Hpb). destruct Hbuf as (Hbl & Hbc & Hbb).
  unfold GoInt.max_alloc in *.
  assert (Hadd : GoInt.add p 32 = p + 32).
  { apply add_id. unfold GoInt.in_range, GoInt.min_int, GoInt.max_int. lia. }
  assert (Hpa : exists lp a, Mem.base payload = Some lp /\ h !! lp = Some a /\
                  0 <= Mem.off payload /\
                  Mem.off payload + Mem.scap payload <= Z.of_nat (length a)).
  { destruct (Mem.base payload) as [lp |]; [| lia].
    destruct Hpb as (a & ? & ? & ?). eauto 10. }
  clear Hpb. destruct Hpa as (lp & a & Hlp & Ha & Hoff & Hin).
  (* the source bytes, as read from any store that agrees on the payload array *)
  assert (Hsrc : forall h1, h1 !! lp = Some a ->
    take (Z.to_nat (32 `min` (p + 32 - p)))
      (Mem.elems h1 (Mem.MkSlice (Mem.base payload) (Mem.off payload + p) (p + 32 - p)
                       (Mem.scap payload - p)))
    = window (Mem.view h payload) p 32 /\
    length (window (Mem.view h payload) p 32) = 32%nat).
  { intros h1 Harr. unfold Mem.elems, Mem.view, window, Mem.array. cbn.
    rewrite Hlp, Harr, Ha. cbn.
    rewrite !take_take. rewrite sub_window by lia.
    split; [f_equal; [lia | f_equal; lia] |].
    rewrite length_take, length_drop. lia. }
  unfold ParseHash. rewrite Hprefix. cbn -[Z.min].
  rewrite Hadd. replace (p + 32 >? Mem.slen payload) with false by lia. cbn -[Z.min].
  unfold ensureEnoughSize, Mem.make, Mem.reslice. subst out.
  destruct (Mem.scap hashbuf <? 32) eqn:Hsmall.
  - (* a fresh array *)
    cbn -[Z.min].
    replace (0 <=? p) with true by lia. replace (p <=? p + 32) with true by lia.
    replace (p + 32 <=? Mem.scap payload) with true by lia. cbn -[Z.min].
    set (l := fresh (dom h)).
    assert (Hl : h !! l = None) by (apply not_elem_of_dom, is_fresh).
    unfold Mem.copy. cbn -[Z.min]. rewrite lookup_insert_eq.
    assert (Harr : (<[l:=replicate (Z.to_nat 32) x00]> h) !! lp = Some a).
    { rewrite lookup_insert_ne by congruence. exact Ha. }
    destruct (Hsrc _ Harr) as [Hbs Hbslen].
    eexists. split; [reflexivity |].
    assert (Hout : forall bs : list byte, length bs = 32%nat ->
      Mem.elems (<[l:=list_inserts (Z.to_nat 0) bs (replicate (Z.to_nat 32) x00)]>
                   (<[l:=replicate (Z.to_nat 32) x00]> h))
                (Mem.MkSlice (Some l) 0 32 32) = bs).
    { intros bs Hbl32. unfold Mem.elems, Mem.view, Mem.array. cbn.
      rewrite lookup_insert_eq. cbn.
      apply (written_back _ bs 0 32 32); [exact Hbl32 | lia |].
      rewrite length_replicate. lia. }
    rewrite Hbs. rewrite Hout by exact Hbslen.
    split; [reflexivity |]. split; [exact Hbslen |]. split.
    + intros _ l' Hl'. rewrite !lookup_insert_ne; [reflexivity | |].
      all: intros <-; apply not_elem_of_dom in Hl; contradiction.
    + lia.
  - (* the caller's array *)
    replace (0 <=? 0) with true by lia. replace (0 <=? 32) with true by lia.
    replace (32 <=? Mem.scap hashbuf) with true by lia. cbn -[Z.min].
    replace (0 <=? p) with true by lia. replace (p <=? p + 32) with true by lia.
    replace (p + 32 <=? Mem.scap payload) with true by lia. cbn -[Z.min].
    destruct (Mem.base hashbuf) as [lb |] eqn:Hbase; [| lia].
    destruct Hbb as (b & Hb & Hboff & Hbin).
    unfold Mem.copy. cbn -[Z.min]. rewrite Hb.
    rewrite ?Z.add_0_r, ?Z.sub_0_r.
    destruct (Hsrc h Ha) as [Hbs Hbslen].
    eexists. split; [reflexivity |].
    rewrite Hbs.
    assert (Hout :
      Mem.elems (<[lb:=list_inserts (Z.to_nat (Mem.off hashbuf))
                         (window (Mem.view h payload) p 32) b]> h)
                (Mem.MkSlice (Some lb) (Mem.off hashbuf) 32 (Mem.scap hashbuf))
      = window (Mem.view h payload) p 32).
    { unfold Mem.elems. unfold Mem.view at 1. unfold Mem.array. cbn.
      rewrite lookup_insert_eq. cbn.
      apply written_back; [exact Hbslen | lia | lia]. }
    rewrite Hout. split; [reflexivity |]. split; [exact Hbslen |]. split; [lia |].
    intros _. split.
    + apply dom_insert_lookup_L. eauto.
    + intros l' Hne. rewrite lookup_insert_ne by congruence. reflexivity.
Qed.

End HashProps.

(** C10: when [ParseHash] returns an error, the slice returned is nil, the
    position returned is 0, and the store is the one it was called with:
    nothing was written, to the caller's buffer or anywhere else. *)
Theorem ParseHash_error_is_clean
    (h : Mem.heap) (payload hashbuf : Mem.slice) (pos : Z)
    (h' : Mem.heap) (out : Mem.slice) (np : Z) (e : error) :
  ParseHash h payload pos hashbuf = Done (h', (out, np, Some e)) ->
  out = Mem.nil /\ np = 0 /\ h' = h.
Proof.
  unfold ParseHash.
  destruct (ParsePrefix (Mem.view h payload) pos) as [[[[p d] l] [e0 |]] |]; cbn;
    try discriminate.
  { intros [= <- <- <- _]. auto. }
  destruct l; [intros [= <- <- <- _]; auto |].
  destruct (GoInt.add p d >? Mem.slen payload); [intros [= <- <- <- _]; auto |].
  destruct (negb (d =? 32)); [intros [= <- <- <- _]; auto |].
  destruct (ensureEnoughSize h hashbuf 32) as [[h1 hb1] |]; cbn; [| discriminate].
  destruct (Mem.reslice payload p (GoInt.add p d)) as [src |]; cbn; [| discriminate].
  destruct (Mem.copy h1 hb1 src) as [h2 n]. discriminate.
Qed.

Lemma ParseHash_error_is_clean_witness :
  ParseHash Sample.store Sample.empty_list 0 Sample.scratch
    = Done (Sample.store, (Mem.nil, 0, Some ErrHashNotString)) /\
  Mem.nil = Mem.nil /\ 0 = 0 /\ Sample.store = Sample.store.
Proof.
  assert (Hrun : ParseHash Sample.store Sample.empty_list 0 Sample.scratch
                 = Done (Sample.store, (Mem.nil, 0, Some ErrHashNotString)))
    by (vm_compute; reflexivity).
  split; [exact Hrun |].
  exact (ParseHash_error_is_clean _ _ _ _ _ _ _ _ Hrun).
Defined.

Section HashOutcome.

Variable h : Mem.heap.
Variables payload hashbuf : Mem.slice.
Variable pos : Z.
Hypothesis Hpay : Mem.valid h payload.

(** A sum of a returned header end and a length that stays within the
    buffer is computed without wrap-around. *)
Lemma window_sum_exact (p d : Z) (l : bool) (e : option error) :
  ParsePrefix (Mem.view h payload) pos = Done (p, d, l, e) ->
  (p + d <= Mem.slen payload \/ d <= 32) ->
  GoInt.add p d = p + d.
Proof.
  intros Hprefix Hfit.
  destruct (view_valid h payload Hpay) as (Hwf & Hcap & Hlen).
  destruct (ParsePrefix_shape _ Hwf _ _ _ _ _ Hprefix) as (Hpos & Hp & Hd).
  destruct Hpay as (Hpl & Hpc & _). unfold GoInt.max_alloc in *.
  apply add_id. unfold GoInt.in_range, GoInt.min_int, GoInt.max_int in *. lia.
Qed.

(** A successful call went through every check. *)
Lemma ParseHash_success_inv (h' : Mem.heap) (out : Mem.slice) (np : Z) :
  ParseHash h payload pos hashbuf = Done (h', (out, np, None)) ->
  exists p, ParsePrefix (Mem.view h payload) pos = Done (p, 32, false, None) /\
            p + 32 <= Mem.slen payload.
Proof.
  unfold ParseHash.
  destruct (ParsePrefix (Mem.view h payload) pos) as [[[[p d] l] [e0 |]] |] eqn:Hprefix;
    cbn; try discriminate.
  destruct l; [discriminate |].
  destruct (GoInt.add p d >? Mem.slen payload) eqn:Hend; [discriminate |].
  destruct (d =? 32) eqn:Hd; cbn; [| discriminate].
  intros _. apply Z.eqb_eq in Hd. subst d.
  exists p. split; [reflexivity |].
  rewrite (window_sum_exact _ _ _ _ Hprefix) in Hend by (right; lia). lia.
Qed.

End HashOutcome.

(** C7: for a string element whose payload window fits in the buffer,
    [ParseHash] fails with the InvalidHashLength error whenever the payload
    length is not 32; when it is 32 the call succeeds, the returned slice
    holds exactly the 32 payload bytes, and the returned position is
    headerEnd + 32. *)
Theorem ParseHash_length_32
    (h : Mem.heap) (payload hashbuf : Mem.slice) (pos p d : Z) :
  Mem.valid h payload -> Mem.valid h hashbuf ->
  ParsePrefix (Mem.view h payload) pos = Done (p, d, false, None) ->
  p + d <= Mem.slen payload ->
  (d <> 32 ->
     ParseHash h payload pos hashbuf = Done (h, (Mem.nil, 0, Some ErrHashNot32)) /\
     kind ErrHashNot32 = InvalidHashLength) /\
  (d = 32 ->
     exists h' out,
       ParseHash h payload pos hashbuf = Done (h', (out, p + 32, None)) /\
       Mem.slen out = 32 /\
       Mem.elems h' out = window (Mem.view h payload) p 32 /\
       length (Mem.elems h' out) = 32%nat).
Proof.
  intros Hpay Hbuf Hprefix Hfit. split.
  - intros Hd. split; [| reflexivity].
    unfold ParseHash. rewrite Hprefix. cbn.
    rewrite (window_sum_exact h payload pos Hpay _ _ _ _ Hprefix) by (left; lia).
    replace (p + d >? Mem.slen payload) with false by lia.
    replace (d =? 32) with false by lia. reflexivity.
  - intros ->.
    destruct (ParseHash_copy h payload hashbuf pos p Hpay Hbuf Hprefix Hfit)
      as (h' & Hrun & Helems & Hlen & _).
    eexists _, _. split; [exact Hrun |]. split; [| split; assumption].
    destruct (Mem.scap hashbuf <? 32); reflexivity.
Qed.

Lemma ParseHash_length_32_witness :
  Mem.valid Sample.store Sample.element /\ Mem.valid Sample.store Mem.nil /\
  ParsePrefix (Mem.view Sample.store Sample.element) 0 = Done (1, 32, false, None) /\
  exists h' out,
    ParseHash Sample.store Sample.element 0 Mem.nil = Done (h', (out, 1 + 32, None)) /\
    Mem.slen out = 32 /\
    Mem.elems h' out = window (Mem.view Sample.store Sample.element) 1 32 /\
    length (Mem.elems h' out) = 32%nat.
Proof.
  assert (Hpay : Mem.valid Sample.store Sample.element).
  { unfold Mem.valid, GoInt.max_alloc. cbn. split; [lia | split; [lia |]].
    eexists. split; [reflexivity |]. cbn. lia. }
  assert (Hbuf : Mem.valid Sample.store Mem.nil).
  { unfold Mem.valid, GoInt.max_alloc. cbn. lia. }
  assert (Hprefix : ParsePrefix (Mem.view Sample.store Sample.element) 0
                    = Done (1, 32, false, None)) by (vm_compute; reflexivity).
  split; [exact Hpay | split; [exact Hbuf | split; [exact Hprefix |]]].
  destruct (ParseHash_length_32 Sample.store Sample.element Mem.nil 0 1 32
              Hpay Hbuf Hprefix ltac:(cbn; lia)) as [_ Hok].
  exact (Hok eq_refl).
Defined.

(** C9 (as stated, refuted): on [0xF8, 0x00] the first byte is 248, a list,
    but the prefix itself is rejected for its zero length byte; [U64] and
    [ParseHash] hand that error on, and its kind is NonCanonicalInteger. *)
Lemma list_with_bad_length_field :
  let payload := Mem.view Sample.store Sample.zero_length_list in
  index payload 0 = Done xf8 /\ 192 <= byte_val xf8 /\
  U64 payload 0 = Done (0, 0, Some (ErrLeadingZeros [x00])) /\
  ParseHash Sample.store Sample.zero_length_list 0 Mem.nil
    = Done (Sample.store, (Mem.nil, 0, Some (ErrHashLen (ErrLeadingZeros [x00])))) /\
  kind (ErrLeadingZeros [x00]) <> WrongElementKind /\
  kind (ErrHashLen (ErrLeadingZeros [x00])) <> WrongElementKind.
Proof.
  cbv zeta. split; [reflexivity |]. split; [vm_compute; discriminate |].
  split; [reflexivity |]. split; [vm_compute; reflexivity |].
  split; discriminate.
Qed.

(** C9 (amended): for a list element (first byte at least 192) whose prefix
    parses without error, which is always the case when the first byte is
    below 248, [U64] and [ParseHash] both fail with an error of kind
    WrongElementKind. *)
Theorem list_element_rejected
    (h : Mem.heap) (payload hashbuf : Mem.slice) (pos : Z) (fb : byte) :
  Mem.valid h payload ->
  index (Mem.view h payload) pos = Done fb ->
  192 <= byte_val fb ->
  (byte_val fb < 248 \/
   exists p d l, ParsePrefix (Mem.view h payload) pos = Done (p, d, l, None)) ->
  U64 (Mem.view h payload) pos = Done (0, 0, Some ErrU64NotString) /\
  kind ErrU64NotString = WrongElementKind /\
  ParseHash h payload pos hashbuf = Done (h, (Mem.nil, 0, Some ErrHashNotString)) /\
  kind ErrHashNotString = WrongElementKind.
Proof.
  intros Hpay Hfb Hlist Hparse.
  destruct (view_valid h payload Hpay) as (Hwf & _ & _).
  assert (Hprefix : exists p d,
            ParsePrefix (Mem.view h payload) pos = Done (p, d, true, None)).
  { destruct Hparse as [Hshort | (p & d & l & Hp)].
    - exists (GoInt.add pos 1), (GoInt.sub (byte_val fb) 192).
      unfold ParsePrefix. rewrite Hfb. cbn.
      replace (byte_val fb <? 128) with false by lia.
      replace (byte_val fb <? 184) with false by lia.
      replace (byte_val fb <? 192) with false by lia.
      now replace (byte_val fb <? 248) with true by lia.
    - exists p, d. rewrite Hp. repeat f_equal.
      revert Hp. unfold ParsePrefix. rewrite Hfb. cbn.
      replace (byte_val fb <? 128) with false by lia.
      replace (byte_val fb <? 184) with false by lia.
      replace (byte_val fb <? 192) with false by lia.
      destruct (byte_val fb <? 248); [intros [= _ _ <-]; reflexivity |].
      destruct (BeInt _ _ _) as [[v e] |]; cbn; [| discriminate].
      intros [= _ _ <- _]. reflexivity. }
  destruct Hprefix as (p & d & Hprefix).
  split; [| split; [reflexivity | split; [| reflexivity]]].
  - unfold U64. rewrite Hprefix. reflexivity.
  - unfold ParseHash. rewrite Hprefix. reflexivity.
Qed.

Lemma list_element_rejected_witness :
  Mem.valid Sample.store Sample.empty_list /\
  index (Mem.view Sample.store Sample.empty_list) 0 = Done xc0 /\
  192 <= byte_val xc0 < 248 /\
  U64 (Mem.view Sample.store Sample.empty_list) 0 = Done (0, 0, Some ErrU64NotString) /\
  kind ErrU64NotString = WrongElementKind /\
  ParseHash Sample.store Sample.empty_list 0 Sample.scratch
    = Done (Sample.store, (Mem.nil, 0, Some ErrHashNotString)) /\
  kind ErrHashNotString = WrongElementKind.
Proof.
  assert (Hpay : Mem.valid Sample.store Sample.empty_list).
  { unfold Mem.valid, GoInt.max_alloc. cbn. split; [lia | split; [lia |]].
    eexists. split; [reflexivity |]. cbn. lia. }
  assert (Hfb : index (Mem.view Sample.store Sample.empty_list) 0 = Done xc0)
    by reflexivity.
  assert (Hr : 192 <= byte_val xc0 < 248) by (change (byte_val xc0) with 192; lia).
  split; [exact Hpay | split; [exact Hfb | split; [exact Hr |]]].
  apply (list_element_rejected _ _ _ _ xc0 Hpay Hfb); [lia | left; lia].
Defined.

(** * Further properties of the decoders *)

(** ** More on reading and on big-endian values *)

Section MoreReading.

Lemma index_panics_iff (b : bytes) (i : Z) :
  wf b -> (index b i = Panics <-> ~ (0 <= i < len b)).
Proof.
  intros Hwf. split.
  - intros Hp Hi. destruct (index_in_bounds b i Hwf Hi) as (x & Hx & _). congruence.
  - intros Hi. unfold index.
    destruct (0 <=? i) eqn:H1, (i <? len b) eqn:H2; cbn; try reflexivity. lia.
Qed.

Lemma range_panics_iff (b : bytes) (lo hi : Z) :
  range b lo hi = Panics <-> ~ (0 <= lo <= hi /\ hi <= cap b).
Proof.
  unfold range.
  destruct (0 <=? lo) eqn:H1, (lo <=? hi) eqn:H2, (hi <=? cap b) eqn:H3; cbn;
    split; try discriminate; try lia; intros; reflexivity.
Qed.

Lemma window_length (b : bytes) (pos n : Z) :
  0 <= pos -> 0 <= n -> pos + n <= cap b ->
  Z.of_nat (length (window b pos n)) = n.
Proof.
  intros Hpos Hn Hfit. unfold window, cap in *.
  rewrite length_take, length_drop. lia.
Qed.

Lemma window_empty (b : bytes) (pos : Z) : window b pos 0 = [].
Proof. reflexivity. Qed.

Lemma byte_val_inj (x y : byte) : byte_val x = byte_val y -> x = y.
Proof.
  unfold byte_val. intros H. apply N2Z.inj in H.
  pose proof (Byte.of_to_N x) as Hx. pose proof (Byte.of_to_N y) as Hy.
  rewrite H in Hx. congruence.
Qed.

Lemma pow256_pos (n : nat) : 0 < 256 ^ Z.of_nat n.
Proof. apply Z.pow_pos_nonneg; lia. Qed.

Lemma be_loop_shift (w : list byte) (r : Z) :
  fold_left be_step w r = r * 256 ^ Z.of_nat (length w) + be_value w.
Proof.
  unfold be_value. revert r. induction w as [| b w IH]; intros r.
  - cbn. lia.
  - cbn [fold_left length]. rewrite IH. rewrite (IH (be_step 0 b)).
    rewrite Nat2Z.inj_succ, Z.pow_succ_r by lia. unfold be_step. ring.
Qed.

Lemma be_value_cons (x : byte) (t : list byte) :
  be_value (x :: t) = byte_val x * 256 ^ Z.of_nat (length t) + be_value t.
Proof.
  unfold be_value at 1. cbn [fold_left]. rewrite be_loop_shift.
  unfold be_step. ring.
Qed.

(** Two byte strings of the same length with the same value are equal. *)
Lemma be_value_inj (w1 w2 : list byte) :
  length w1 = length w2 -> be_value w1 = be_value w2 -> w1 = w2.
Proof.
  revert w2. induction w1 as [| x t IH]; intros [| y u] Hlen Hval;
    try discriminate; [reflexivity |].
  injection Hlen as Hlen. rewrite !be_value_cons, Hlen in Hval.
  pose proof (be_value_bounds t) as Ht. pose proof (be_value_bounds u) as Hu.
  rewrite Hlen in Ht. pose proof (pow256_pos (length u)) as Hpos.
  assert (Hxy : byte_val x = byte_val y) by nia.
  rewrite Hxy in Hval. apply byte_val_inj in Hxy. subst y.
  f_equal. apply IH; [exact Hlen | lia].
Qed.

(** Without a leading zero, the value fixes the length. *)
Lemma be_value_canonical_length (x y : byte) (t u : list byte) :
  byte_val x <> 0 -> byte_val y <> 0 ->
  be_value (x :: t) = be_value (y :: u) -> length t = length u.
Proof.
  intros Hx Hy Hval.
  assert (Hgap : forall (a b : byte) (s v : list byte),
             byte_val a <> 0 -> (length s < length v)%nat ->
             be_value (a :: s) < be_value (b :: v) \/ byte_val b = 0).
  { intros a b s v Ha Hlt.
    destruct (Z.eq_dec (byte_val b) 0) as [Hb0 | Hb0]; [right; exact Hb0 | left].
    pose proof (be_value_bounds (a :: s)) as Has. cbn [length] in Has.
    pose proof (be_value_lower b v) as Hbv. pose proof (byte_val_range b).
    assert (256 ^ Z.of_nat (S (length s)) <= 256 ^ Z.of_nat (length v))
      by (apply Z.pow_le_mono_r; lia).
    pose proof (pow256_pos (length v)). nia. }
  destruct (Nat.lt_trichotomy (length t) (length u)) as [Hlt | [Heq | Hgt]];
    [| exact Heq |].
  - destruct (Hgap x y t u Hx Hlt); [lia | contradiction].
  - destruct (Hgap y x u t Hy Hgt); [lia | contradiction].
Qed.

(** The loop of [U64] computes the big-endian value as long as it fits. *)
Lemma u64_loop_exact (w : list byte) (r : Z) :
  0 <= r -> fold_left be_step w r < 2 ^ 64 ->
  fold_left u64_step w r = fold_left be_step w r.
Proof.
  revert r. induction w as [| b w IH]; intros r Hr Hfit; [reflexivity |].
  cbn [fold_left] in *. pose proof (byte_val_range b) as Hb.
  assert (Hstep : be_step r b < 2 ^ 64).
  { pose proof (be_loop_bounds w (be_step r b)) as Hbd.
    unfold be_step in *. specialize (Hbd ltac:(lia)).
    pose proof (pow256_pos (length w)). nia. }
  assert (Heq : u64_step r b = be_step r b).
  { unfold u64_step, be_step, GoInt.shl_u64, GoInt.wrap_u64 in *.
    rewrite Z.shiftl_mul_pow2 by lia. change (2 ^ 8) with 256.
    rewrite Z.mod_small by lia. apply lor_low_byte. exact Hb. }
  rewrite Heq. apply IH; [unfold be_step; lia | exact Hfit].
Qed.

Lemma u64_loop_value (w : list byte) :
  (length w <= 8)%nat -> fold_left u64_step w 0 = be_value w.
Proof.
  intros Hlen. apply u64_loop_exact; [lia |].
  pose proof (be_value_bounds w) as Hb. unfold be_value in Hb.
  assert (256 ^ Z.of_nat (length w) <= 256 ^ 8) by (apply Z.pow_le_mono_r; lia).
  change (256 ^ 8) with (2 ^ 64) in *. lia.
Qed.

End MoreReading.

(** ** [BeInt] outside the contract of its callers *)

Section BeIntEdges.

Variable payload : bytes.
Hypothesis Hwf : wf payload.

(** [BeInt] in full, for arguments whose sum does not overflow. *)
Lemma BeInt_cases (pos length : Z) :
  GoInt.in_range (pos + length) ->
  BeInt payload pos length =
    (lz ← leading_zero payload pos length;
     w ← range payload pos (pos + length);
     Done (if (lz : bool) then (0, Some (ErrLeadingZeros w))
           else (GoInt.wrap (be_value w), None))).
Proof.
  intros Hsum. unfold BeInt. rewrite add_id by exact Hsum.
  destruct (leading_zero payload pos length) as [[|] |]; cbn; try reflexivity.
  destruct (range payload pos (pos + length)) as [w |]; cbn; [| reflexivity].
  now rewrite int_loop_value.
Qed.

Lemma leading_zero_panics_iff (pos length : Z) :
  leading_zero payload pos length = Panics <-> 0 < length /\ ~ (0 <= pos < len payload).
Proof.
  unfold leading_zero. destruct (length >? 0) eqn:Hgt.
  - destruct (index payload pos) as [x |] eqn:Hx; cbn.
    + split; [discriminate |]. intros [_ Hout].
      apply index_inv in Hx. tauto.
    + apply index_panics_iff in Hx; [| exact Hwf]. split; [| reflexivity].
      intros _. split; [lia | exact Hx].
  - split; [discriminate | lia].
Qed.

Lemma BeInt_panics (pos length : Z) :
  GoInt.in_range (pos + length) ->
  BeInt payload pos length = Panics <->
  (0 < length /\ ~ (0 <= pos < len payload)) \/
  ~ (0 <= pos /\ 0 <= length /\ pos + length <= cap payload).
Proof.
  intros Hsum. rewrite (BeInt_cases pos length Hsum).
  pose proof (leading_zero_panics_iff pos length) as Hlz.
  pose proof (range_panics_iff payload pos (pos + length)) as Hrg.
  destruct (leading_zero payload pos length) as [lz |]; cbn.
  - destruct (range payload pos (pos + length)) as [w |]; cbn.
    + split; [discriminate |]. intros [Hbad | Hbad].
      * apply Hlz in Hbad. discriminate.
      * assert (Hp : Done w = Panics) by (apply Hrg; lia). discriminate.
    + split; [| reflexivity]. intros _. right.
      assert (Hp : ~ (0 <= pos <= pos + length /\ pos + length <= cap payload))
        by (apply Hrg; reflexivity).
      lia.
  - split; [| reflexivity]. intros _. left. apply Hlz. reflexivity.
Qed.

(** A window that starts within the length and ends within the capacity is
    read, cells beyond the length included. *)
Lemma BeInt_to_capacity (pos length : Z) (x : byte) :
  0 < length -> pos + length <= cap payload ->
  index payload pos = Done x -> byte_val x <> 0 ->
  BeInt payload pos length = Done (GoInt.wrap (be_value (window payload pos length)), None).
Proof.
  intros Hlen Hfit Hx Hnz. pose proof (index_inv _ _ _ Hx) as [Hpos _].
  destruct Hwf as [Hl Hc]. unfold GoInt.max_alloc in Hc.
  rewrite BeInt_cases
    by (unfold GoInt.in_range, GoInt.min_int, GoInt.max_int; lia).
  unfold leading_zero. replace (length >? 0) with true by lia. rewrite Hx. cbn.
  replace (byte_val x =? 0) with false by lia.
  rewrite range_in_bounds by lia. cbn.
  now replace (pos + length - pos) with length by lia.
Qed.

End BeIntEdges.

(** ** [ParsePrefix]: where it reads, what it returns, when it panics *)

Section PrefixEdges.

Variable payload : bytes.
Hypothesis Hwf : wf payload.

(** [ParsePrefix] with the position arithmetic carried out. *)
Lemma ParsePrefix_resolved (pos : Z) (fb : byte) :
  index payload pos = Done fb ->
  ParsePrefix payload pos =
    let first := byte_val fb in
    if first <? 128 then Done (pos, 1, false, None)
    else if first <? 184 then Done (pos + 1, first - 128, false, None)
    else if first <? 192 then
      '(dataLen, err) ← BeInt payload (pos + 1) (first - 183);
      Done (pos + 1 + (first - 183), dataLen, false, err)
    else if first <? 248 then Done (pos + 1, first - 192, true, None)
    else
      '(dataLen, err) ← BeInt payload (pos + 1) (first - 247);
      Done (pos + 1 + (first - 247), dataLen, true, err).
Proof.
  intros Hfb. pose proof (index_inv _ _ _ Hfb) as [Hpos _].
  pose proof (byte_val_range fb) as Hb. destruct Hwf as [Hl Hc].
  unfold GoInt.max_alloc in Hc.
  assert (Hin : forall z, - 2 ^ 62 <= z <= 2 ^ 62 -> GoInt.in_range z).
  { intros z Hz. unfold GoInt.in_range, GoInt.min_int, GoInt.max_int. lia. }
  cbv zeta.
  destruct (byte_val fb <? 128) eqn:H1.
  { unfold ParsePrefix. rewrite Hfb. cbn. now rewrite H1. }
  destruct (byte_val fb <? 184) eqn:H2.
  { unfold ParsePrefix. rewrite Hfb. cbn. rewrite H1, H2.
    now rewrite add_id, sub_id by (apply Hin; lia). }
  destruct (byte_val fb <? 192) eqn:H3.
  { apply (ParsePrefix_long payload Hwf pos _ fb false Hfb). left. lia. }
  destruct (byte_val fb <? 248) eqn:H4.
  { unfold ParsePrefix. rewrite Hfb. cbn. rewrite H1, H2, H3, H4.
    now rewrite add_id, sub_id by (apply Hin; lia). }
  apply (ParsePrefix_long payload Hwf pos _ fb true Hfb). right. lia.
Qed.

(** What a returned length field was read from. *)
Lemma BeInt_success (pos length v : Z) :
  GoInt.in_range (pos + length) ->
  BeInt payload pos length = Done (v, None) ->
  0 <= pos /\ 0 <= length /\ pos + length <= cap payload /\
  v = GoInt.wrap (be_value (window payload pos length)) /\
  (0 < length -> exists x, index payload pos = Done x /\ byte_val x <> 0).
Proof.
  intros Hsum. rewrite (BeInt_cases payload pos length Hsum).
  unfold leading_zero. destruct (length >? 0) eqn:Hgt.
  - destruct (index payload pos) as [x |] eqn:Hx; cbn; [| discriminate].
    destruct (range payload pos (pos + length)) as [w |] eqn:Hw; cbn; [| discriminate].
    apply range_inv in Hw as (Hlo & Hhi & ->).
    replace (pos + length - pos) with length by lia.
    destruct (byte_val x =? 0) eqn:Hz; [discriminate |].
    intros [= <-]. repeat split; try lia. intros _. exists x. split; [reflexivity | lia].
  - cbn. destruct (range payload pos (pos + length)) as [w |] eqn:Hw; cbn; [| discriminate].
    apply range_inv in Hw as (Hlo & Hhi & ->).
    replace (pos + length - pos) with length by lia.
    intros [= <-]. repeat split; try lia.
Qed.

Lemma ParsePrefix_header (pos p d : Z) (l : bool) (e : option error) :
  ParsePrefix payload pos = Done (p, d, l, e) ->
  0 <= pos < len payload /\ pos <= p <= pos + 9 /\ p <= cap payload /\
  (pos < p \/ (d = 1 /\ l = false /\ e = None)).
Proof.
  intros Hrun.
  destruct (ParsePrefix_shape payload Hwf pos p d l e Hrun) as (Hpos & Hp & _).
  split; [exact Hpos |]. split; [exact Hp |].
  destruct (index_in_bounds payload pos Hwf Hpos) as (fb & Hfb & _).
  rewrite (ParsePrefix_resolved pos fb Hfb) in Hrun. cbv zeta in Hrun.
  pose proof (byte_val_range fb) as Hb. pose proof Hwf as [Hl Hc].
  unfold GoInt.max_alloc in Hc.
  assert (Hin : forall z, - 2 ^ 62 <= z <= 2 ^ 62 -> GoInt.in_range z).
  { intros z Hz. unfold GoInt.in_range, GoInt.min_int, GoInt.max_int. lia. }
  assert (Hlong : forall n v e', 1 <= n <= 8 ->
            BeInt payload (pos + 1) n = Done (v, e') -> pos + 1 + n <= cap payload).
  { intros n v e' Hn HB. rewrite (BeInt_cases payload (pos + 1) n) in HB
      by (apply Hin; lia).
    destruct (leading_zero payload (pos + 1) n); cbn in HB; [| discriminate].
    destruct (range payload (pos + 1) (pos + 1 + n)) as [w |] eqn:Hw;
      cbn in HB; [| discriminate].
    apply range_inv in Hw. lia. }
  destruct (byte_val fb <? 128) eqn:H1.
  { injection Hrun as <- <- <- <-. split; [lia |]. right. auto. }
  destruct (byte_val fb <? 184) eqn:H2.
  { injection Hrun as <- <- <- <-. split; lia. }
  destruct (byte_val fb <? 192) eqn:H3.
  { destruct (BeInt payload (pos + 1) (byte_val fb - 183)) as [[v e'] |] eqn:HB;
      cbn in Hrun; [| discriminate].
    injection Hrun as <- <- <- <-. apply Hlong in HB; [| lia]. split; lia. }
  destruct (byte_val fb <? 248) eqn:H4.
  { injection Hrun as <- <- <- <-. split; lia. }
  destruct (BeInt payload (pos + 1) (byte_val fb - 247)) as [[v e'] |] eqn:HB;
    cbn in Hrun; [| discriminate].
  injection Hrun as <- <- <- <-. apply Hlong in HB; [| lia]. split; lia.
Qed.

Lemma ParsePrefix_length (pos p d : Z) (l : bool) (fb : byte) :
  ParsePrefix payload pos = Done (p, d, l, None) ->
  index payload pos = Done fb ->
  byte_val fb <> 191 -> byte_val fb <> 255 ->
  0 <= d < 2 ^ 56.
Proof.
  intros Hrun Hfb Hn1 Hn2. pose proof (index_inv _ _ _ Hfb) as [Hpos _].
  rewrite (ParsePrefix_resolved pos fb Hfb) in Hrun. cbv zeta in Hrun.
  pose proof (byte_val_range fb) as Hb. pose proof Hwf as [Hl Hc].
  unfold GoInt.max_alloc in Hc.
  assert (Hlong : forall n v, 1 <= n <= 7 ->
            BeInt payload (pos + 1) n = Done (v, None) -> 0 <= v < 2 ^ 56).
  { intros n v Hn HB.
    apply BeInt_success in HB as (_ & _ & Hfit & -> & _);
      [| unfold GoInt.in_range, GoInt.min_int, GoInt.max_int; lia].
    pose proof (be_value_bounds (window payload (pos + 1) n)) as Hbv.
    pose proof (window_length payload (pos + 1) n ltac:(lia) ltac:(lia) Hfit) as Hwl.
    rewrite Hwl in Hbv.
    assert (256 ^ n <= 256 ^ 7) by (apply Z.pow_le_mono_r; lia).
    change (256 ^ 7) with (2 ^ 56) in *.
    rewrite wrap_id; [lia |].
    unfold GoInt.in_range, GoInt.min_int, GoInt.max_int. lia. }
  destruct (byte_val fb <? 128) eqn:H1.
  { injection Hrun as <- <- <-. lia. }
  destruct (byte_val fb <? 184) eqn:H2.
  { injection Hrun as <- <- <-. lia. }
  destruct (byte_val fb <? 192) eqn:H3.
  { destruct (BeInt payload (pos + 1) (byte_val fb - 183)) as [[v e'] |] eqn:HB;
      cbn in Hrun; [| discriminate].
    injection Hrun as <- <- <- ->. apply Hlong in HB; lia. }
  destruct (byte_val fb <? 248) eqn:H4.
  { injection Hrun as <- <- <-. lia. }
  destruct (BeInt payload (pos + 1) (byte_val fb - 247)) as [[v e'] |] eqn:HB;
    cbn in Hrun; [| discriminate].
  injection Hrun as <- <- <- ->. apply Hlong in HB; lia.
Qed.

Lemma ParsePrefix_panics (pos : Z) :
  ParsePrefix payload pos = Panics <->
  ~ (0 <= pos < len payload) \/
  exists fb, index payload pos = Done fb /\
    ((184 <= byte_val fb < 192 /\
        (len payload <= pos + 1 \/ cap payload < pos + 1 + (byte_val fb - 183))) \/
     (248 <= byte_val fb /\
        (len payload <= pos + 1 \/ cap payload < pos + 1 + (byte_val fb - 247)))).
Proof.
  pose proof Hwf as [Hl Hc]. unfold GoInt.max_alloc in Hc.
  destruct (index payload pos) as [fb |] eqn:Hfb.
  - pose proof (index_inv _ _ _ Hfb) as [Hpos _].
    pose proof (byte_val_range fb) as Hb.
    rewrite (ParsePrefix_resolved pos fb Hfb). cbv zeta.
    assert (Hlong : forall n (l : bool), 1 <= n <= 8 ->
      ('(dataLen, err) ← BeInt payload (pos + 1) n;
       Done (pos + 1 + n, dataLen, l, err)) = Panics <->
      (len payload <= pos + 1 \/ cap payload < pos + 1 + n)).
    { intros n l Hn.
      pose proof (BeInt_panics payload Hwf (pos + 1) n) as HP.
      destruct (BeInt payload (pos + 1) n) as [[v e] |]; cbn.
      - split; [discriminate |]. intros Hbad.
        assert (@Done (Z * option error) (v, e) = Panics); [| discriminate].
        apply HP; [unfold GoInt.in_range, GoInt.min_int, GoInt.max_int; lia |]. lia.
      - split; [| reflexivity]. intros _.
        assert (Hc' : (0 < n /\ ~ (0 <= pos + 1 < len payload)) \/
                      ~ (0 <= pos + 1 /\ 0 <= n /\ pos + 1 + n <= cap payload)).
        { apply HP; [unfold GoInt.in_range, GoInt.min_int, GoInt.max_int; lia |].
          reflexivity. }
        lia. }
    destruct (byte_val fb <? 128) eqn:H1.
    { split; [discriminate |]. intros [Hout | (fb' & [= <-] & Hcase)]; lia. }
    destruct (byte_val fb <? 184) eqn:H2.
    { split; [discriminate |]. intros [Hout | (fb' & [= <-] & Hcase)]; lia. }
    destruct (byte_val fb <? 192) eqn:H3.
    { rewrite Hlong by lia. split.
      - intros Hbad. right. exists fb. split; [reflexivity |]. left. lia.
      - intros [Hout | (fb' & [= <-] & Hcase)]; lia. }
    destruct (byte_val fb <? 248) eqn:H4.
    { split; [discriminate |]. intros [Hout | (fb' & [= <-] & Hcase)]; lia. }
    rewrite Hlong by lia. split.
    + intros Hbad. right. exists fb. split; [reflexivity |]. right. lia.
    + intros [Hout | (fb' & [= <-] & Hcase)]; lia.
  - assert (Hrun : ParsePrefix payload pos = Panics)
      by (unfold ParsePrefix; now rewrite Hfb).
    rewrite Hrun. split; [| reflexivity]. intros _. left.
    apply index_panics_iff; assumption.
Qed.

End PrefixEdges.

(** ** The scalar decoders past their checks *)

Section PayloadRead.

Variable payload : bytes.
Hypothesis Hwf : wf payload.

(** The two reads that [U64] and [U256] make of a payload window that their
    end-of-payload check has let through. *)
Lemma payload_read (p d : Z) :
  0 <= p -> p + d <= len payload ->
  (d < 0 ->
     leading_zero payload p d = Done false /\ range payload p (p + d) = Panics) /\
  (0 <= d ->
     range payload p (p + d) = Done (window payload p d) /\
     Z.of_nat (length (window payload p d)) = d /\
     ((0 < d /\ exists x t, index payload p = Done x /\ window payload p d = x :: t /\
                            leading_zero payload p d = Done (byte_val x =? 0)) \/
      (d = 0 /\ leading_zero payload p d = Done false))).
Proof.
  intros Hp Hfit. pose proof Hwf as [Hl Hc]. split.
  - intros Hd. split.
    + unfold leading_zero. now replace (d >? 0) with false by lia.
    + apply range_panics_iff. lia.
  - intros Hd. split; [| split].
    + rewrite range_in_bounds by lia. now replace (p + d - p) with d by lia.
    + apply window_length; lia.
    + destruct (Z.eq_dec d 0) as [-> | Hnz]; [right; split; reflexivity |].
      left. split; [lia |].
      destruct (index_in_bounds payload p Hwf ltac:(lia)) as (x & Hx & Hcell).
      destruct (window_head payload p d x Hp ltac:(lia) Hcell) as [t Ht].
      exists x, t. split; [exact Hx |]. split; [exact Ht |].
      unfold leading_zero. replace (d >? 0) with true by lia. now rewrite Hx.
Qed.

(** Header end and length of a parsed string element add up without
    wrap-around unless the length is huge. *)
Lemma header_sum (pos p d : Z) (l : bool) (e : option error) :
  ParsePrefix payload pos = Done (p, d, l, e) ->
  d <= 2 ^ 62 -> GoInt.add p d = p + d.
Proof.
  intros Hrun Hd.
  destruct (ParsePrefix_shape payload Hwf pos p d l e Hrun) as (Hpos & Hp & Hr).
  pose proof Hwf as [Hl Hc]. unfold GoInt.max_alloc in Hc.
  apply add_id. unfold GoInt.in_range, GoInt.min_int, GoInt.max_int in *. lia.
Qed.

(** Everything a successful [U64] went through. *)
Lemma U64_success (pos np v : Z) :
  U64 payload pos = Done (np, v, None) ->
  exists p d,
    ParsePrefix payload pos = Done (p, d, false, None) /\
    0 <= d <= 8 /\ np = p + d /\ pos < np < len payload /\
    v = be_value (window payload p d) /\
    Z.of_nat (length (window payload p d)) = d /\
    leading_zero payload p d = Done false /\
    range payload p (p + d) = Done (window payload p d) /\
    (0 < d -> exists x t, window payload p d = x :: t /\ byte_val x <> 0).
Proof.
  unfold U64.
  destruct (ParsePrefix payload pos) as [[[[p d] l] [e |]] |] eqn:Hprefix; cbn;
    try discriminate.
  destruct l; [discriminate |].
  destruct (GoInt.add p d >=? len payload) eqn:Hend; [discriminate |].
  destruct (d >? 8) eqn:H8; [discriminate |].
  rewrite (header_sum pos p d false None Hprefix) in * by lia.
  destruct (ParsePrefix_header payload Hwf pos p d false None Hprefix)
    as (Hpos & Hp & _ & Hprog).
  destruct (payload_read p d ltac:(lia) ltac:(lia)) as [Hneg Hnonneg].
  destruct (Z.lt_ge_cases d 0) as [Hd | Hd].
  { destruct (Hneg Hd) as [-> ->]. discriminate. }
  destruct (Hnonneg Hd) as (Hrange & Hlen & Hlead). rewrite Hrange.
  assert (Hval : fold_left u64_step (window payload p d) 0
                 = be_value (window payload p d)) by (apply u64_loop_value; lia).
  destruct Hlead as [(Hpos' & x & t & Hx & Ht & Hlz) | (-> & Hlz)]; rewrite Hlz; cbn.
  - destruct (byte_val x =? 0) eqn:Hz; [discriminate |]. intros [= <- <-].
    exists p, d. repeat split; try assumption; try lia.
    intros _. exists x, t. split; [exact Ht | lia].
  - intros [= <- <-]. exists p, 0. repeat split; try assumption; try lia.
Qed.

(** Everything a successful [U256] went through. *)
Lemma U256_success (pos x x' np : Z) :
  U256 payload pos x = Done (x', (np, None)) ->
  exists p d,
    ParsePrefix payload pos = Done (p, d, false, None) /\
    0 <= d <= 32 /\ np = p + d /\ pos < np <= len payload /\
    x' = SetBytes (window payload p d) /\
    Z.of_nat (length (window payload p d)) = d /\
    (0 < d -> exists y t, window payload p d = y :: t /\ byte_val y <> 0).
Proof.
  unfold U256.
  destruct (ParsePrefix payload pos) as [[[[p d] l] [e |]] |] eqn:Hprefix; cbn;
    try discriminate.
  destruct l; [discriminate |].
  destruct (GoInt.add p d >? len payload) eqn:Hend; [discriminate |].
  destruct (d >? 32) eqn:H32; [discriminate |].
  rewrite (header_sum pos p d false None Hprefix) in * by lia.
  destruct (ParsePrefix_header payload Hwf pos p d false None Hprefix)
    as (Hpos & Hp & _ & Hprog).
  destruct (payload_read p d ltac:(lia) ltac:(lia)) as [Hneg Hnonneg].
  destruct (Z.lt_ge_cases d 0) as [Hd | Hd].
  { destruct (Hneg Hd) as [-> ->]. discriminate. }
  destruct (Hnonneg Hd) as (Hrange & Hlen & Hlead). rewrite Hrange.
  destruct Hlead as [(Hpos' & y & t & Hy & Ht & Hlz) | (-> & Hlz)]; rewrite Hlz; cbn.
  - destruct (byte_val y =? 0) eqn:Hz; [discriminate |]. intros [= <- <-].
    exists p, d. repeat split; try assumption; try lia.
    intros _. exists y, t. split; [exact Ht | lia].
  - intros [= <- <-]. exists p, 0. repeat split; try assumption; try lia.
Qed.

(** On at most 32 bytes [SetBytes] is the big-endian value. *)
Lemma SetBytes_value (w : list byte) :
  (length w <= 32)%nat -> SetBytes w = be_value w.
Proof.
  intros Hlen. unfold SetBytes. apply Z.mod_small.
  pose proof (be_value_bounds w) as Hb.
  assert (256 ^ Z.of_nat (length w) <= 256 ^ 32) by (apply Z.pow_le_mono_r; lia).
  change (256 ^ 32) with (2 ^ 256) in *. lia.
Qed.

End PayloadRead.

(** [U64], success: the element read is a string of at most 8 bytes that
    ends strictly before the end of the buffer, the position returned is the
    end of the element and lies beyond the start, and the value is the
    big-endian value of the payload, in canonical range for its length. *)
Theorem U64_success_inv (payload : bytes) (pos np v : Z) :
  wf payload ->
  U64 payload pos = Done (np, v, None) ->
  exists p d,
    ParsePrefix payload pos = Done (p, d, false, None) /\
    0 <= d <= 8 /\ np = p + d /\ pos < np < len payload /\
    v = be_value (window payload p d) /\
    0 <= v < 256 ^ d /\ (0 < d -> 256 ^ (d - 1) <= v).
Proof.
  intros Hwf Hrun.
  destruct (U64_success payload Hwf pos np v Hrun)
    as (p & d & Hprefix & Hd & Hnp & Hpos & Hv & Hlen & _ & _ & Hlead).
  exists p, d. repeat split; try assumption; try lia.
  - rewrite Hv. apply be_value_bounds.
  - rewrite Hv. pose proof (be_value_bounds (window payload p d)) as Hb.
    now rewrite Hlen in Hb.
  - intros Hgt. destruct (Hlead Hgt) as (x & t & Ht & Hnz).
    rewrite Hv, Ht. rewrite Ht in Hlen. cbn [length] in Hlen.
    pose proof (be_value_lower x t) as Hlow. pose proof (byte_val_range x).
    replace (d - 1) with (Z.of_nat (length t)) by lia.
    pose proof (pow256_pos (length t)). nia.
Qed.

Lemma U64_success_inv_witness :
  wf (of_list [x82; x01; x02; x00]) /\
  exists p d,
    ParsePrefix (of_list [x82; x01; x02; x00]) 0 = Done (p, d, false, None) /\
    0 <= d <= 8 /\ 3 = p + d /\ 0 < 3 < len (of_list [x82; x01; x02; x00]) /\
    258 = be_value (window (of_list [x82; x01; x02; x00]) p d) /\
    0 <= 258 < 256 ^ d /\ (0 < d -> 256 ^ (d - 1) <= 258).
Proof.
  assert (Hwf : wf (of_list [x82; x01; x02; x00])).
  { unfold wf, cap, GoInt.max_alloc. cbn. lia. }
  split; [exact Hwf |].
  exact (U64_success_inv (of_list [x82; x01; x02; x00]) 0 3 258 Hwf eq_refl).
Defined.

(** [U64], acceptance: a string element of at most 8 payload bytes, ending
    strictly before the end of the buffer and not starting with a zero byte,
    decodes to the big-endian value of its payload, and the position returned
    is the end of the element. *)
Theorem U64_decodes (payload : bytes) (pos p d : Z) :
  wf payload ->
  ParsePrefix payload pos = Done (p, d, false, None) ->
  0 <= d <= 8 -> p + d < len payload ->
  (0 < d -> forall x, index payload p = Done x -> byte_val x <> 0) ->
  U64 payload pos = Done (p + d, be_value (window payload p d), None).
Proof.
  intros Hwf Hprefix Hd Hfit Hnz.
  destruct (ParsePrefix_header payload Hwf pos p d false None Hprefix)
    as (Hpos & Hp & _ & _).
  unfold U64. rewrite Hprefix. cbn.
  rewrite (header_sum payload Hwf pos p d false None Hprefix) by lia.
  replace (p + d >=? len payload) with false by lia.
  replace (d >? 8) with false by lia.
  destruct (payload_read payload Hwf p d ltac:(lia) ltac:(lia)) as [_ Hnonneg].
  destruct (Hnonneg ltac:(lia)) as (Hrange & Hlen & Hlead). rewrite Hrange.
  assert (Hval : fold_left u64_step (window payload p d) 0
                 = be_value (window payload p d)) by (apply u64_loop_value; lia).
  destruct Hlead as [(Hpos' & x & t & Hx & Ht & Hlz) | (-> & Hlz)]; rewrite Hlz; cbn.
  - replace (byte_val x =? 0) with false
      by (symmetry; apply Z.eqb_neq; exact (Hnz Hpos' x Hx)).
    now rewrite Hval.
  - now rewrite Hval.
Qed.

Lemma U64_decodes_witness :
  wf (of_list [x82; x01; x02; x00]) /\
  ParsePrefix (of_list [x82; x01; x02; x00]) 0 = Done (1, 2, false, None) /\
  U64 (of_list [x82; x01; x02; x00]) 0
    = Done (1 + 2, be_value (window (of_list [x82; x01; x02; x00]) 1 2), None).
Proof.
  assert (Hwf : wf (of_list [x82; x01; x02; x00])).
  { unfold wf, cap, GoInt.max_alloc. cbn. lia. }
  split; [exact Hwf |]. split; [reflexivity |].
  apply (U64_decodes _ 0 1 2 Hwf eq_refl); [lia | cbn; lia |].
  intros _ x Hx. vm_compute in Hx. injection Hx as <-. vm_compute. discriminate.
Defined.

(** [U64], canonical form: two successful decodings of the same value, in
    whatever buffers and at whatever positions, read payloads of the same
    length and with the same bytes. *)
Theorem U64_canonical_unique (b1 b2 : bytes) (pos1 pos2 np1 np2 v : Z) :
  wf b1 -> wf b2 ->
  U64 b1 pos1 = Done (np1, v, None) ->
  U64 b2 pos2 = Done (np2, v, None) ->
  exists p1 p2 d,
    ParsePrefix b1 pos1 = Done (p1, d, false, None) /\
    ParsePrefix b2 pos2 = Done (p2, d, false, None) /\
    window b1 p1 d = window b2 p2 d.
Proof.
  intros Hwf1 Hwf2 Hrun1 Hrun2.
  destruct (U64_success b1 Hwf1 pos1 np1 v Hrun1)
    as (p1 & d1 & Hpre1 & Hd1 & _ & _ & Hv1 & Hlen1 & _ & _ & Hlead1).
  destruct (U64_success b2 Hwf2 pos2 np2 v Hrun2)
    as (p2 & d2 & Hpre2 & Hd2 & _ & _ & Hv2 & Hlen2 & _ & _ & Hlead2).
  assert (Hzero : forall (b : bytes) p d,
            Z.of_nat (length (window b p d)) = d -> d = 0 -> be_value (window b p d) = 0).
  { intros b p d Hl ->. destruct (window b p 0); [reflexivity | discriminate]. }
  assert (Hpos : forall (b : bytes) p d,
            (0 < d -> exists x t, window b p d = x :: t /\ byte_val x <> 0) ->
            0 < d -> 0 < be_value (window b p d)).
  { intros b p d Hl Hgt. destruct (Hl Hgt) as (x & t & -> & Hnz).
    pose proof (be_value_lower x t). pose proof (byte_val_range x).
    pose proof (pow256_pos (length t)). nia. }
  assert (Hsame : d1 = d2).
  { destruct (Z.eq_dec d1 0) as [Hz1 | Hz1], (Z.eq_dec d2 0) as [Hz2 | Hz2].
    - lia.
    - pose proof (Hzero b1 p1 d1 Hlen1 Hz1). pose proof (Hpos b2 p2 d2 Hlead2 ltac:(lia)). lia.
    - pose proof (Hzero b2 p2 d2 Hlen2 Hz2). pose proof (Hpos b1 p1 d1 Hlead1 ltac:(lia)). lia.
    - destruct (Hlead1 ltac:(lia)) as (x & t & Ht & Hx).
      destruct (Hlead2 ltac:(lia)) as (y & u & Hu & Hy).
      rewrite Ht in Hv1, Hlen1. rewrite Hu in Hv2, Hlen2.
      assert (length t = length u)
        by (apply (be_value_canonical_length x y t u Hx Hy); congruence).
      cbn [length] in Hlen1, Hlen2. lia. }
  subst d2. exists p1, p2, d1. split; [exact Hpre1 |]. split; [exact Hpre2 |].
  apply be_value_inj; [lia | congruence].
Qed.

Lemma U64_canonical_unique_witness :
  exists p1 p2 d,
    ParsePrefix (of_list [x82; x01; x02; x00]) 0 = Done (p1, d, false, None) /\
    ParsePrefix (of_list [xff; x82; x01; x02; xc0]) 1 = Done (p2, d, false, None) /\
    window (of_list [x82; x01; x02; x00]) p1 d
      = window (of_list [xff; x82; x01; x02; xc0]) p2 d.
Proof.
  apply (U64_canonical_unique _ _ 0 1 3 4 258).
  - unfold wf, cap, GoInt.max_alloc. cbn. lia.
  - unfold wf, cap, GoInt.max_alloc. cbn. lia.
  - reflexivity.
  - reflexivity.
Defined.

Section DecoderPanics.

Variable payload : bytes.
Hypothesis Hwf : wf payload.
Variables pos p d : Z.
Hypothesis Hprefix : ParsePrefix payload pos = Done (p, d, false, None).

(** After a parsed string header, [U64] panics exactly when the length is
    negative and its end-of-payload comparison lets it through. *)
Lemma U64_panics_string :
  U64 payload pos = Panics <-> d < 0 /\ p + d < len payload.
Proof.
  unfold U64. rewrite Hprefix. cbn.
  destruct (ParsePrefix_shape payload Hwf pos p d false None Hprefix)
    as (Hpos & Hp & Hr).
  destruct (Z.le_gt_cases d 8) as [Hd | Hd].
  - rewrite (header_sum payload Hwf pos p d false None Hprefix) by lia.
    destruct (p + d >=? len payload) eqn:Hend.
    { split; [discriminate | lia]. }
    replace (d >? 8) with false by lia.
    destruct (payload_read payload Hwf p d ltac:(lia) ltac:(lia)) as [Hneg Hnonneg].
    destruct (Z.lt_ge_cases d 0) as [Hlt | Hge].
    + destruct (Hneg Hlt) as [-> ->]. cbn. split; [lia | reflexivity].
    + destruct (Hnonneg Hge) as (-> & _ & Hlead).
      destruct Hlead as [(_ & x & t & _ & _ & ->) | (_ & ->)]; cbn;
        try destruct (byte_val x =? 0); cbn; (split; [discriminate | lia]).
  - destruct (GoInt.add p d >=? len payload); [split; [discriminate | lia] |].
    replace (d >? 8) with true by lia. split; [discriminate | lia].
Qed.

(** The same for [U256], whose comparison is [>]. *)
Lemma U256_panics_string (x : Z) :
  U256 payload pos x = Panics <-> d < 0 /\ p + d <= len payload.
Proof.
  unfold U256. rewrite Hprefix. cbn.
  destruct (ParsePrefix_shape payload Hwf pos p d false None Hprefix)
    as (Hpos & Hp & Hr).
  destruct (Z.le_gt_cases d 32) as [Hd | Hd].
  - rewrite (header_sum payload Hwf pos p d false None Hprefix) by lia.
    destruct (p + d >? len payload) eqn:Hend.
    { split; [discriminate | lia]. }
    replace (d >? 32) with false by lia.
    destruct (payload_read payload Hwf p d ltac:(lia) ltac:(lia)) as [Hneg Hnonneg].
    destruct (Z.lt_ge_cases d 0) as [Hlt | Hge].
    + destruct (Hneg Hlt) as [-> ->]. cbn. split; [lia | reflexivity].
    + destruct (Hnonneg Hge) as (-> & _ & Hlead).
      destruct Hlead as [(_ & y & t & _ & _ & ->) | (_ & ->)]; cbn;
        try destruct (byte_val y =? 0); cbn; (split; [discriminate | lia]).
  - destruct (GoInt.add p d >? len payload); [split; [discriminate | lia] |].
    replace (d >? 32) with true by lia. split; [discriminate | lia].
Qed.

End DecoderPanics.

(** [U64] panics in two cases only: [ParsePrefix] panics, or [ParsePrefix]
    returns a string header with a negative length that the end-of-payload
    comparison lets through. *)
Theorem U64_panics_iff (payload : bytes) (pos : Z) :
  wf payload ->
  U64 payload pos = Panics <->
  ParsePrefix payload pos = Panics \/
  exists p d, ParsePrefix payload pos = Done (p, d, false, None) /\
              d < 0 /\ p + d < len payload.
Proof.
  intros Hwf.
  destruct (ParsePrefix payload pos) as [[[[p d] l] e] |] eqn:Hprefix.
  - destruct e as [e |], l.
    1-3: unfold U64; rewrite Hprefix; cbn;
      (split; [discriminate | intros [[=] | (p' & d' & [=] & _)]]).
    rewrite (U64_panics_string payload Hwf pos p d Hprefix). split.
    + intros Hd. right. exists p, d. auto.
    + intros [[=] | (p' & d' & [= <- <-] & Hd)]. exact Hd.
  - unfold U64. rewrite Hprefix. cbn. split; auto.
Qed.

Lemma U64_panics_iff_witness :
  wf (of_list [xbf; xff; xff; xff; xff; xff; xff; xff; xff; x00]) /\
  U64 (of_list [xbf; xff; xff; xff; xff; xff; xff; xff; xff; x00]) 0 = Panics.
Proof.
  assert (Hwf : wf (of_list [xbf; xff; xff; xff; xff; xff; xff; xff; xff; x00])).
  { unfold wf, cap, GoInt.max_alloc. cbn. lia. }
  split; [exact Hwf |].
  apply (U64_panics_iff _ 0 Hwf). right. exists 9, (-1).
  split; [vm_compute; reflexivity | cbn; lia].
Defined.

(** [U256] panics in the same two cases, its comparison being [>]. *)
Theorem U256_panics_iff (payload : bytes) (pos x : Z) :
  wf payload ->
  U256 payload pos x = Panics <->
  ParsePrefix payload pos = Panics \/
  exists p d, ParsePrefix payload pos = Done (p, d, false, None) /\
              d < 0 /\ p + d <= len payload.
Proof.
  intros Hwf.
  destruct (ParsePrefix payload pos) as [[[[p d] l] e] |] eqn:Hprefix.
  - destruct e as [e |], l.
    1-3: unfold U256; rewrite Hprefix; cbn;
      (split; [discriminate | intros [[=] | (p' & d' & [=] & _)]]).
    rewrite (U256_panics_string payload Hwf pos p d Hprefix x). split.
    + intros Hd. right. exists p, d. auto.
    + intros [[=] | (p' & d' & [= <- <-] & Hd)]. exact Hd.
  - unfold U256. rewrite Hprefix. cbn. split; auto.
Qed.

Lemma U256_panics_iff_witness :
  wf (of_list [xbf; xff; xff; xff; xff; xff; xff; xff; xff]) /\
  U256 (of_list [xbf; xff; xff; xff; xff; xff; xff; xff; xff]) 0 7 = Panics.
Proof.
  assert (Hwf : wf (of_list [xbf; xff; xff; xff; xff; xff; xff; xff; xff])).
  { unfold wf, cap, GoInt.max_alloc. cbn. lia. }
  split; [exact Hwf |].
  apply (U256_panics_iff _ 0 7 Hwf). right. exists 9, (-1).
  split; [vm_compute; reflexivity | cbn; lia].
Defined.

(** [U256], success: the element read is a string of at most 32 bytes that
    ends at or before the end of the buffer, the position returned is its end
    and lies beyond the start, and the integer stored is the big-endian value
    of the payload, in canonical range for its length. *)
Theorem U256_success_inv (payload : bytes) (pos x x' np : Z) :
  wf payload ->
  U256 payload pos x = Done (x', (np, None)) ->
  exists p d,
    ParsePrefix payload pos = Done (p, d, false, None) /\
    0 <= d <= 32 /\ np = p + d /\ pos < np <= len payload /\
    x' = be_value (window payload p d) /\
    0 <= x' < 256 ^ d /\ (0 < d -> 256 ^ (d - 1) <= x').
Proof.
  intros Hwf Hrun.
  destruct (U256_success payload Hwf pos x x' np Hrun)
    as (p & d & Hprefix & Hd & Hnp & Hpos & Hx & Hlen & Hlead).
  rewrite SetBytes_value in Hx by lia.
  exists p, d. repeat split; try assumption; try lia.
  - rewrite Hx. apply be_value_bounds.
  - rewrite Hx. pose proof (be_value_bounds (window payload p d)) as Hb.
    now rewrite Hlen in Hb.
  - intros Hgt. destruct (Hlead Hgt) as (y & t & Ht & Hnz).
    rewrite Hx, Ht. rewrite Ht in Hlen. cbn [length] in Hlen.
    pose proof (be_value_lower y t) as Hlow. pose proof (byte_val_range y).
    replace (d - 1) with (Z.of_nat (length t)) by lia.
    pose proof (pow256_pos (length t)). nia.
Qed.

Lemma U256_success_inv_witness :
  wf (of_list [x82; x01; x02]) /\
  exists p d,
    ParsePrefix (of_list [x82; x01; x02]) 0 = Done (p, d, false, None) /\
    0 <= d <= 32 /\ 3 = p + d /\ 0 < 3 <= len (of_list [x82; x01; x02]) /\
    258 = be_value (window (of_list [x82; x01; x02]) p d) /\
    0 <= 258 < 256 ^ d /\ (0 < d -> 256 ^ (d - 1) <= 258).
Proof.
  assert (Hwf : wf (of_list [x82; x01; x02])).
  { unfold wf, cap, GoInt.max_alloc. cbn. lia. }
  split; [exact Hwf |].
  exact (U256_success_inv (of_list [x82; x01; x02]) 0 0 258 3 Hwf eq_refl).
Defined.

(** [U256], acceptance: a string element of at most 32 payload bytes that
    ends at or before the end of the buffer, the exact end included, and does
    not start with a zero byte, is decoded; [x] receives the big-endian value
    of the payload. *)
Theorem U256_decodes (payload : bytes) (pos p d x : Z) :
  wf payload ->
  ParsePrefix payload pos = Done (p, d, false, None) ->
  0 <= d <= 32 -> p + d <= len payload ->
  (0 < d -> forall y, index payload p = Done y -> byte_val y <> 0) ->
  U256 payload pos x = Done (be_value (window payload p d), (p + d, None)).
Proof.
  intros Hwf Hprefix Hd Hfit Hnz.
  destruct (ParsePrefix_header payload Hwf pos p d false None Hprefix)
    as (Hpos & Hp & _ & _).
  unfold U256. rewrite Hprefix. cbn.
  rewrite (header_sum payload Hwf pos p d false None Hprefix) by lia.
  replace (p + d >? len payload) with false by lia.
  replace (d >? 32) with false by lia.
  destruct (payload_read payload Hwf p d ltac:(lia) ltac:(lia)) as [_ Hnonneg].
  destruct (Hnonneg ltac:(lia)) as (Hrange & Hlen & Hlead). rewrite Hrange.
  assert (Hval : SetBytes (window payload p d) = be_value (window payload p d))
    by (apply SetBytes_value; lia).
  destruct Hlead as [(Hpos' & y & t & Hy & Ht & Hlz) | (-> & Hlz)]; rewrite Hlz; cbn.
  - replace (byte_val y =? 0) with false
      by (symmetry; apply Z.eqb_neq; exact (Hnz Hpos' y Hy)).
    now rewrite Hval.
  - now rewrite Hval.
Qed.

Lemma U256_decodes_witness :
  wf (of_list [x82; x01; x02]) /\
  ParsePrefix (of_list [x82; x01; x02]) 0 = Done (1, 2, false, None) /\
  U256 (of_list [x82; x01; x02]) 0 7
    = Done (be_value (window (of_list [x82; x01; x02]) 1 2), (1 + 2, None)).
Proof.
  assert (Hwf : wf (of_list [x82; x01; x02])).
  { unfold wf, cap, GoInt.max_alloc. cbn. lia. }
  split; [exact Hwf |]. split; [reflexivity |].
  apply (U256_decodes _ 0 1 2 7 Hwf eq_refl); [lia | cbn; lia |].
  intros _ y Hy. vm_compute in Hy. injection Hy as <-. vm_compute. discriminate.
Defined.

(** Whatever [U64] decodes, [U256] decodes at the same position to the same
    value and the same new position. *)
Theorem U64_then_U256 (payload : bytes) (pos np v x : Z) :
  wf payload ->
  U64 payload pos = Done (np, v, None) ->
  U256 payload pos x = Done (v, (np, None)).
Proof.
  intros Hwf Hrun.
  destruct (U64_success payload Hwf pos np v Hrun)
    as (p & d & Hprefix & Hd & -> & Hpos & -> & Hlen & Hlz & Hrange & _).
  unfold U256. rewrite Hprefix. cbn.
  rewrite (header_sum payload Hwf pos p d false None Hprefix) by lia.
  replace (p + d >? len payload) with false by lia.
  replace (d >? 32) with false by lia.
  rewrite Hlz. cbn. rewrite Hrange. cbn.
  now rewrite SetBytes_value by lia.
Qed.

Lemma U64_then_U256_witness :
  wf (of_list [x82; x01; x02; x00]) /\
  U256 (of_list [x82; x01; x02; x00]) 0 7 = Done (258, (3, None)).
Proof.
  assert (Hwf : wf (of_list [x82; x01; x02; x00])).
  { unfold wf, cap, GoInt.max_alloc. cbn. lia. }
  split; [exact Hwf |].
  exact (U64_then_U256 (of_list [x82; x01; x02; x00]) 0 3 258 7 Hwf eq_refl).
Defined.

(** On every error return [U64] gives position 0 and value 0, and the error
    is never one of the hash decoder's. *)
Theorem U64_error_result (payload : bytes) (pos np v : Z) (e : error) :
  U64 payload pos = Done (np, v, Some e) ->
  np = 0 /\ v = 0 /\ kind e <> InvalidHashLength.
Proof.
  unfold U64.
  destruct (ParsePrefix payload pos) as [[[[p d] l] [e0 |]] |] eqn:Hprefix; cbn;
    try discriminate.
  { intros [= <- <- <-]. repeat split.
    revert Hprefix. unfold ParsePrefix.
    destruct (index payload pos) as [fb |]; cbn; [| discriminate].
    assert (Hbe : forall n v' e', BeInt payload (GoInt.add pos 1) n = Done (v', Some e') ->
                    kind e' <> InvalidHashLength).
    { intros n v' e'. unfold BeInt.
      destruct (leading_zero payload (GoInt.add pos 1) n) as [[|] |]; cbn;
        try discriminate;
        destruct (range payload (GoInt.add pos 1) (GoInt.add (GoInt.add pos 1) n));
        cbn; try discriminate.
      intros [= _ <-]. discriminate. }
    repeat (match goal with
            | |- context [if ?c then _ else _] => destruct c
            end; try discriminate).
    all: match goal with
         | |- context [BeInt ?b ?q ?n] =>
             destruct (BeInt b q n) as [[v' e'] |] eqn:HB; cbn; [| discriminate]
         end.
    all: intros [= _ _ _ ->]; exact (Hbe _ _ _ HB). }
  destruct l; [intros [= <- <- <-]; repeat split; discriminate |].
  destruct (GoInt.add p d >=? len payload);
    [intros [= <- <- <-]; repeat split; discriminate |].
  destruct (d >? 8); [intros [= <- <- <-]; repeat split; discriminate |].
  destruct (leading_zero payload p d) as [[|] |]; cbn; try discriminate;
    destruct (range payload p (GoInt.add p d)); cbn; try discriminate.
  intros [= <- <- <-]. repeat split; discriminate.
Qed.

Lemma U64_error_result_witness :
  U64 (of_list [xc0]) 0 = Done (0, 0, Some ErrU64NotString) /\
  0 = 0 /\ 0 = 0 /\ kind ErrU64NotString <> InvalidHashLength.
Proof.
  split; [reflexivity |].
  exact (U64_error_result (of_list [xc0]) 0 0 0 ErrU64NotString eq_refl).
Defined.

(** On every error return [U256] gives position 0 and leaves the integer
    behind [x] as it was. *)
Theorem U256_error_keeps_x (payload : bytes) (pos x x' np : Z) (e : error) :
  U256 payload pos x = Done (x', (np, Some e)) -> x' = x /\ np = 0.
Proof.
  unfold U256.
  destruct (ParsePrefix payload pos) as [[[[p d] l] [e0 |]] |]; cbn; try discriminate.
  { intros [= <- <- _]. auto. }
  destruct l; [intros [= <- <- _]; auto |].
  destruct (GoInt.add p d >? len payload); [intros [= <- <- _]; auto |].
  destruct (d >? 32); [intros [= <- <- _]; auto |].
  destruct (leading_zero payload p d) as [[|] |]; cbn; try discriminate;
    destruct (range payload p (GoInt.add p d)); cbn; try discriminate.
  intros [= <- <- _]. auto.
Qed.

Lemma U256_error_keeps_x_witness :
  U256 (of_list [x81; x00]) 0 7 = Done (7, (0, Some (ErrLeadingZeros [x00]))) /\
  7 = 7 /\ 0 = 0.
Proof.
  split; [reflexivity |].
  exact (U256_error_keeps_x (of_list [x81; x00]) 0 7 7 0 _ eq_refl).
Defined.

(** [ParsePrefix], header end: whenever it returns, with or without error,
    the position was within the length, the header end lies between [pos]
    and [pos + 9] and within the capacity, and it equals [pos] only for a
    single-byte string, whose length is 1. *)
Theorem ParsePrefix_header_end
    (payload : bytes) (pos p d : Z) (l : bool) (e : option error) :
  wf payload ->
  ParsePrefix payload pos = Done (p, d, l, e) ->
  0 <= pos < len payload /\ pos <= p <= pos + 9 /\ p <= cap payload /\
  (pos < p \/ (d = 1 /\ l = false /\ e = None)).
Proof. intros Hwf. apply ParsePrefix_header. exact Hwf. Qed.

Lemma ParsePrefix_header_end_witness :
  wf (of_list [xb8; x38]) /\
  0 <= 0 < len (of_list [xb8; x38]) /\ 0 <= 2 <= 0 + 9 /\
  2 <= cap (of_list [xb8; x38]) /\
  (0 < 2 \/ (56 = 1 /\ false = false /\ @None error = None)).
Proof.
  assert (Hwf : wf (of_list [xb8; x38])).
  { unfold wf, cap, GoInt.max_alloc. cbn. lia. }
  split; [exact Hwf |].
  exact (ParsePrefix_header_end (of_list [xb8; x38]) 0 2 56 false None Hwf eq_refl).
Defined.

(** [ParsePrefix], payload length: unless the first byte announces eight
    length bytes (191 or 255), a length returned without error is
    non-negative and below 2^56. *)
Theorem ParsePrefix_length_range
    (payload : bytes) (pos p d : Z) (l : bool) (fb : byte) :
  wf payload ->
  ParsePrefix payload pos = Done (p, d, l, None) ->
  index payload pos = Done fb ->
  byte_val fb <> 191 -> byte_val fb <> 255 ->
  0 <= d < 2 ^ 56.
Proof. intros Hwf. apply ParsePrefix_length. exact Hwf. Qed.

Lemma ParsePrefix_length_range_witness :
  wf (of_list [xb9; x01; x00]) /\ 0 <= 256 < 2 ^ 56.
Proof.
  assert (Hwf : wf (of_list [xb9; x01; x00])).
  { unfold wf, cap, GoInt.max_alloc. cbn. lia. }
  split; [exact Hwf |].
  apply (ParsePrefix_length_range (of_list [xb9; x01; x00]) 0 3 256 false xb9 Hwf);
    try reflexivity; vm_compute; discriminate.
Defined.

(** [ParsePrefix] panics exactly when the position is outside the length,
    or the first byte announces length bytes of which the first lies outside
    the length or the last outside the capacity. *)
Theorem ParsePrefix_panics_iff (payload : bytes) (pos : Z) :
  wf payload ->
  ParsePrefix payload pos = Panics <->
  ~ (0 <= pos < len payload) \/
  exists fb, index payload pos = Done fb /\
    ((184 <= byte_val fb < 192 /\
        (len payload <= pos + 1 \/ cap payload < pos + 1 + (byte_val fb - 183))) \/
     (248 <= byte_val fb /\
        (len payload <= pos + 1 \/ cap payload < pos + 1 + (byte_val fb - 247)))).
Proof. intros Hwf. apply ParsePrefix_panics. exact Hwf. Qed.

Lemma ParsePrefix_panics_iff_witness :
  wf (of_list [xf9; x01]) /\ ParsePrefix (of_list [xf9; x01]) 0 = Panics /\
  wf (of_list []) /\ ParsePrefix (of_list []) 0 = Panics.
Proof.
  assert (Hwf : wf (of_list [xf9; x01])).
  { unfold wf, cap, GoInt.max_alloc. cbn. lia. }
  assert (Hwf0 : wf (of_list [])).
  { unfold wf, cap, GoInt.max_alloc. cbn. lia. }
  split; [exact Hwf |]. split; [| split; [exact Hwf0 |]].
  - apply (ParsePrefix_panics_iff _ 0 Hwf). right. exists xf9.
    split; [reflexivity |]. right. change (byte_val xf9) with 249.
    change (cap (of_list [xf9; x01])) with 2. lia.
  - apply (ParsePrefix_panics_iff _ 0 Hwf0). left. cbn. lia.
Defined.

(** [BeInt] panics exactly when a non-empty window starts outside the
    length, or the window is not a range within the capacity (negative
    position or length included). *)
Theorem BeInt_panics_iff (payload : bytes) (pos length : Z) :
  wf payload -> GoInt.in_range (pos + length) ->
  BeInt payload pos length = Panics <->
  (0 < length /\ ~ (0 <= pos < len payload)) \/
  ~ (0 <= pos /\ 0 <= length /\ pos + length <= cap payload).
Proof. intros Hwf. apply BeInt_panics. exact Hwf. Qed.

Lemma BeInt_panics_iff_witness :
  wf (of_list [x01]) /\ GoInt.in_range (0 + 2) /\ BeInt (of_list [x01]) 0 2 = Panics.
Proof.
  assert (Hwf : wf (of_list [x01])).
  { unfold wf, cap, GoInt.max_alloc. cbn. lia. }
  assert (Hr : GoInt.in_range (0 + 2))
    by (unfold GoInt.in_range, GoInt.min_int, GoInt.max_int; lia).
  split; [exact Hwf |]. split; [exact Hr |].
  apply (BeInt_panics_iff _ 0 2 Hwf Hr). right.
  change (cap (of_list [x01])) with 1. lia.
Defined.

(** [BeInt] checks the start of the window against the length and its end
    against the capacity only: a window that starts within the length with a
    non-zero byte is read through to its end, cells beyond the length
    included. *)
Theorem BeInt_reads_to_capacity (payload : bytes) (pos length : Z) (x : byte) :
  wf payload ->
  0 < length -> pos + length <= cap payload ->
  index payload pos = Done x -> byte_val x <> 0 ->
  be_value (window payload pos length) < 2 ^ 63 ->
  BeInt payload pos length = Done (be_value (window payload pos length), None).
Proof.
  intros Hwf Hlen Hfit Hx Hnz Hsmall.
  rewrite (BeInt_to_capacity payload Hwf pos length x Hlen Hfit Hx Hnz).
  rewrite wrap_id; [reflexivity |].
  pose proof (be_value_bounds (window payload pos length)).
  unfold GoInt.in_range, GoInt.min_int, GoInt.max_int. lia.
Qed.

Lemma BeInt_reads_to_capacity_witness :
  wf (Bytes [x01; x02] 1) /\ len (Bytes [x01; x02] 1) < 0 + 2 /\
  BeInt (Bytes [x01; x02] 1) 0 2 = Done (be_value [x01; x02], None).
Proof.
  assert (Hwf : wf (Bytes [x01; x02] 1)).
  { unfold wf, cap, GoInt.max_alloc. cbn. lia. }
  split; [exact Hwf |]. split; [cbn; lia |].
  apply (BeInt_reads_to_capacity (Bytes [x01; x02] 1) 0 2 x01 Hwf).
  - lia.
  - change (cap (Bytes [x01; x02] 1)) with 2. lia.
  - reflexivity.
  - vm_compute. discriminate.
  - vm_compute. reflexivity.
Defined.

(** [BeInt], canonical form: two successful reads of windows of at most 7
    bytes that return the same value read windows of the same length and
    with the same bytes. *)
Theorem BeInt_canonical_unique
    (b1 b2 : bytes) (pos1 pos2 n1 n2 v : Z) :
  GoInt.in_range (pos1 + n1) -> GoInt.in_range (pos2 + n2) ->
  0 < n1 <= 7 -> 0 < n2 <= 7 ->
  BeInt b1 pos1 n1 = Done (v, None) ->
  BeInt b2 pos2 n2 = Done (v, None) ->
  n1 = n2 /\ window b1 pos1 n1 = window b2 pos2 n2.
Proof.
  intros Hr1 Hr2 Hn1 Hn2 Hrun1 Hrun2.
  assert (Hread : forall (b : bytes) pos n,
            GoInt.in_range (pos + n) -> 0 < n <= 7 ->
            BeInt b pos n = Done (v, None) ->
            v = be_value (window b pos n) /\
            Z.of_nat (length (window b pos n)) = n /\
            exists x t, window b pos n = x :: t /\ byte_val x <> 0).
  { intros b pos n Hr Hn Hrun.
    destruct (BeInt_success b pos n v Hr Hrun) as (Hpos & _ & Hfit & Hv & Hlead).
    destruct (Hlead ltac:(lia)) as (x & Hx & Hnz).
    pose proof (window_length b pos n Hpos ltac:(lia) Hfit) as Hlen.
    destruct (index_inv _ _ _ Hx) as [_ Hcell].
    destruct (window_head b pos n x Hpos ltac:(lia) Hcell) as [t Ht].
    split; [| split; [exact Hlen | eauto]].
    rewrite Hv. apply wrap_id.
    pose proof (be_value_bounds (window b pos n)) as Hb. rewrite Hlen in Hb.
    assert (256 ^ n <= 256 ^ 7) by (apply Z.pow_le_mono_r; lia).
    change (256 ^ 7) with (2 ^ 56) in *.
    unfold GoInt.in_range, GoInt.min_int, GoInt.max_int. lia. }
  destruct (Hread b1 pos1 n1 Hr1 Hn1 Hrun1) as (Hv1 & Hl1 & x & t & Ht & Hx).
  destruct (Hread b2 pos2 n2 Hr2 Hn2 Hrun2) as (Hv2 & Hl2 & y & u & Hu & Hy).
  assert (Hsame : length t = length u).
  { apply (be_value_canonical_length x y t u Hx Hy). congruence. }
  assert (Hn : n1 = n2).
  { rewrite Ht in Hl1. rewrite Hu in Hl2. cbn [length] in Hl1, Hl2. lia. }
  split; [exact Hn |]. apply be_value_inj; [lia | congruence].
Qed.

Lemma BeInt_canonical_unique_witness :
  2 = 2 /\ window (of_list [x01; x02]) 0 2 = window (of_list [x09; x01; x02]) 1 2.
Proof.
  apply (BeInt_canonical_unique _ _ 0 1 2 2 258); try lia; try reflexivity.
  - unfold GoInt.in_range, GoInt.min_int, GoInt.max_int; lia.
  - unfold GoInt.in_range, GoInt.min_int, GoInt.max_int; lia.
Defined.

(** ** [ensureEnoughSize] and the store after [ParseHash] *)

Section StoreAfterHash.

Variable h : Mem.heap.
Variables payload hashbuf : Mem.slice.
Variable pos p : Z.
Hypothesis Hpay : Mem.valid h payload.
Hypothesis Hprefix : ParsePrefix (Mem.view h payload) pos = Done (p, 32, false, None).
Hypothesis Hfit : p + 32 <= Mem.slen payload.

Lemma payload_array :
  exists lp a, Mem.base payload = Some lp /\ h !! lp = Some a /\
               0 <= Mem.off payload /\ 0 <= p /\
               Mem.off payload + Mem.scap payload <= Z.of_nat (length a).
Proof.
  destruct (view_valid h payload Hpay) as (Hwf & Hcap & Hlen).
  destruct (ParsePrefix_shape _ Hwf _ _ _ _ _ Hprefix) as (Hpos & Hp & _).
  destruct Hpay as (Hpl & Hpc & Hpb).
  destruct (Mem.base payload) as [lp |]; [| lia].
  destruct Hpb as (a & ? & ? & ?). exists lp, a. repeat split; try assumption; lia.
Qed.

(** The bytes [copy] takes from the payload, in any store that holds the
    payload's array unchanged. *)
Lemma payload_elems (h1 : Mem.heap) (lp : positive) (a : list byte) :
  Mem.base payload = Some lp -> h !! lp = Some a -> h1 !! lp = Some a ->
  take (Z.to_nat (32 `min` (p + 32 - p)))
    (Mem.elems h1 (Mem.MkSlice (Mem.base payload) (Mem.off payload + p) (p + 32 - p)
                     (Mem.scap payload - p)))
  = window (Mem.view h payload) p 32 /\
  length (window (Mem.view h payload) p 32) = 32%nat.
Proof.
  intros Hlp Ha Ha1.
  destruct payload_array as (lp' & a' & Hlp' & Ha' & Hoff & Hp & Hin).
  assert (lp' = lp) as -> by congruence. assert (a' = a) as -> by congruence.
  destruct Hpay as (Hpl & Hpc & _).
  unfold Mem.elems, Mem.view, window, Mem.array. cbn.
  rewrite Hlp, Ha1, Ha. cbn.
  rewrite !take_take. rewrite sub_window by lia.
  split; [f_equal; [lia | f_equal; lia] |].
  rewrite length_take, length_drop. lia.
Qed.

(** [ParseHash] down to its last two statements. *)
Lemma ParseHash_tail :
  ParseHash h payload pos hashbuf =
    ('(h1, hashbuf1) ← ensureEnoughSize h hashbuf 32;
     let '(h2, _) :=
       Mem.copy h1 hashbuf1
         (Mem.MkSlice (Mem.base payload) (Mem.off payload + p) (p + 32 - p)
            (Mem.scap payload - p)) in
     Done (h2, (hashbuf1, p + 32, None))).
Proof.
  destruct payload_array as (lp & a & Hlp & Ha & Hoff & Hp & Hin).
  destruct Hpay as (Hpl & Hpc & _). unfold GoInt.max_alloc in Hpc.
  assert (Hadd : GoInt.add p 32 = p + 32).
  { apply add_id. unfold GoInt.in_range, GoInt.min_int, GoInt.max_int. lia. }
  unfold ParseHash. rewrite Hprefix. cbn -[Z.min ensureEnoughSize Mem.copy].
  rewrite Hadd. replace (p + 32 >? Mem.slen payload) with false by lia.
  cbn -[Z.min ensureEnoughSize Mem.copy].
  destruct (ensureEnoughSize h hashbuf 32) as [[h1 hb1] |];
    cbn -[Z.min Mem.copy]; [| reflexivity].
  unfold Mem.reslice.
  replace (0 <=? p) with true by lia. replace (p <=? p + 32) with true by lia.
  replace (p + 32 <=? Mem.scap payload) with true by lia. reflexivity.
Qed.

(** With too small an output buffer: a new array holding the 32 payload
    bytes is added to the store, and nothing else changes. *)
Lemma ParseHash_fresh_store :
  Mem.scap hashbuf < 32 ->
  ParseHash h payload pos hashbuf =
    Done (<[fresh (dom h) := window (Mem.view h payload) p 32]> h,
          (Mem.MkSlice (Some (fresh (dom h))) 0 32 32, p + 32, None)).
Proof.
  intros Hsmall. rewrite ParseHash_tail.
  destruct payload_array as (lp & a & Hlp & Ha & Hoff & Hp & Hin).
  unfold ensureEnoughSize, Mem.make. replace (Mem.scap hashbuf <? 32) with true by lia.
  cbn -[Z.min]. set (l := fresh (dom h)).
  assert (Hl : h !! l = None) by (apply not_elem_of_dom, is_fresh).
  unfold Mem.copy. cbn -[Z.min]. rewrite lookup_insert_eq.
  assert (Ha1 : (<[l:=replicate (Z.to_nat 32) x00]> h) !! lp = Some a).
  { rewrite lookup_insert_ne by congruence. exact Ha. }
  destruct (payload_elems _ lp a Hlp Ha Ha1) as [-> Hlen].
  rewrite insert_insert_eq. do 3 f_equal.
  rewrite <- (app_nil_r (window (Mem.view h payload) p 32)) at 1.
  apply list_inserts_0_l. rewrite Hlen, length_replicate. reflexivity.
Qed.

(** With capacity for it: the 32 payload bytes are written into the caller's
    array from the slice's offset on, and the store has no other change. *)
Lemma ParseHash_reuse_store (lb : positive) (b : list byte) :
  32 <= Mem.scap hashbuf -> Mem.base hashbuf = Some lb -> h !! lb = Some b ->
  ParseHash h payload pos hashbuf =
    Done (<[lb := list_inserts (Z.to_nat (Mem.off hashbuf))
                    (window (Mem.view h payload) p 32) b]> h,
          (Mem.MkSlice (Some lb) (Mem.off hashbuf) 32 (Mem.scap hashbuf), p + 32, None)).
Proof.
  intros Hcap Hbase Hb. rewrite ParseHash_tail.
  destruct payload_array as (lp & a & Hlp & Ha & Hoff & Hp & Hin).
  unfold ensureEnoughSize, Mem.reslice.
  replace (Mem.scap hashbuf <? 32) with false by lia.
  replace (0 <=? 0) with true by lia. replace (0 <=? 32) with true by lia.
  replace (32 <=? Mem.scap hashbuf) with true by lia. cbn -[Z.min].
  unfold Mem.copy. cbn -[Z.min]. rewrite Hbase, Hb.
  rewrite ?Z.add_0_r, ?Z.sub_0_r.
  destruct (payload_elems h lp a Hlp Ha Ha) as [-> _]. reflexivity.
Qed.

End StoreAfterHash.

Section StoreLemmas.

Lemma list_inserts_idem (o : nat) (k l : list byte) :
  list_inserts o k (list_inserts o k l) = list_inserts o k l.
Proof.
  apply list_eq. intros j.
  destruct (decide (j < length l)%nat) as [Hj | Hj].
  - destruct (decide (o <= j < o + length k)%nat) as [Hin | Hout].
    + rewrite !list_lookup_inserts by (rewrite ?length_inserts; lia). reflexivity.
    + destruct (decide (j < o)%nat).
      * rewrite list_lookup_inserts_lt by lia. reflexivity.
      * rewrite list_lookup_inserts_ge by lia. reflexivity.
  - rewrite !lookup_ge_None_2 by (rewrite ?length_inserts; lia). reflexivity.
Qed.

Lemma list_inserts_whole (k l : list byte) :
  length k = length l -> list_inserts 0 k l = k.
Proof.
  intros Hlen. rewrite <- (app_nil_r k) at 1. now apply list_inserts_0_l.
Qed.

(** A slice sees the same cells in two stores that agree on its array. *)
Lemma view_agree (h h1 : Mem.heap) (s : Mem.slice) :
  (forall l, Mem.base s = Some l -> h1 !! l = h !! l) ->
  Mem.view h1 s = Mem.view h s.
Proof.
  intros Hsame. unfold Mem.view, Mem.array.
  destruct (Mem.base s) as [l |]; [| reflexivity]. now rewrite (Hsame l eq_refl).
Qed.

Lemma valid_agree (h h1 : Mem.heap) (s : Mem.slice) :
  (forall l, Mem.base s = Some l -> h1 !! l = h !! l) ->
  Mem.valid h s -> Mem.valid h1 s.
Proof.
  intros Hsame (Hl & Hc & Hb). split; [exact Hl |]. split; [exact Hc |].
  destruct (Mem.base s) as [l |]; [| exact Hb]. now rewrite (Hsame l eq_refl).
Qed.

End StoreLemmas.

(** C8: for a 32-byte string element that fits in the buffer, a call with an
    output buffer of capacity at least 32 returns the caller's buffer cut to
    length 32 (same array, same offset, same capacity), allocates no array,
    changes no other array, and leaves the 32 payload bytes in the returned
    slice; a call with a smaller capacity allocates a new array of exactly
    the 32 payload bytes, returns it with length and capacity 32, and leaves
    every array of the caller as it was. *)
Theorem ParseHash_buffer_reuse
    (h : Mem.heap) (payload hashbuf : Mem.slice) (pos p : Z) :
  Mem.valid h payload -> Mem.valid h hashbuf ->
  ParsePrefix (Mem.view h payload) pos = Done (p, 32, false, None) ->
  p + 32 <= Mem.slen payload ->
  (32 <= Mem.scap hashbuf ->
     let out := Mem.MkSlice (Mem.base hashbuf) (Mem.off hashbuf) 32 (Mem.scap hashbuf) in
     exists h',
       ParseHash h payload pos hashbuf = Done (h', (out, p + 32, None)) /\
       dom h' = dom h /\
       (forall l, Mem.base hashbuf <> Some l -> h' !! l = h !! l) /\
       Mem.elems h' out = window (Mem.view h payload) p 32 /\
       length (Mem.elems h' out) = 32%nat) /\
  (Mem.scap hashbuf < 32 ->
     let l := fresh (dom h) in
     let out := Mem.MkSlice (Some l) 0 32 32 in
     exists h',
       ParseHash h payload pos hashbuf = Done (h', (out, p + 32, None)) /\
       (l ∉ dom h) /\ dom h' = {[l]} ∪ dom h /\
       (forall l', l' ∈ dom h -> h' !! l' = h !! l') /\
       h' !! l = Some (window (Mem.view h payload) p 32) /\
       Mem.elems h' out = window (Mem.view h payload) p 32 /\
       length (Mem.elems h' out) = 32%nat).
Proof.
  intros Hpay Hbuf Hprefix Hfit.
  destruct (ParseHash_copy h payload hashbuf pos p Hpay Hbuf Hprefix Hfit)
    as (h' & Hrun & Helems & Hlen & Hfresh & Hreuse).
  split.
  - intros Hcap out. replace (Mem.scap hashbuf <? 32) with false in * by lia.
    destruct (Hreuse Hcap) as [Hdom Hother].
    exists h'. repeat split; assumption.
  - intros Hcap l out. replace (Mem.scap hashbuf <? 32) with true in * by lia.
    pose proof (ParseHash_fresh_store h payload hashbuf pos p Hpay Hprefix Hfit Hcap)
      as Hstore.
    rewrite Hstore in Hrun. injection Hrun as Hh'.
    exists h'. split; [rewrite Hstore, Hh'; reflexivity |].
    split; [apply is_fresh |].
    split; [rewrite <- Hh'; apply dom_insert_L |].
    split; [exact (Hfresh Hcap) |].
    split; [rewrite <- Hh'; apply lookup_insert_eq |].
    split; assumption.
Qed.

Lemma ParseHash_buffer_reuse_witness :
  Mem.valid Sample.store Sample.element /\
  Mem.valid Sample.store Sample.scratch /\ Mem.valid Sample.store Mem.nil /\
  ParsePrefix (Mem.view Sample.store Sample.element) 0 = Done (1, 32, false, None) /\
  (exists h',
     ParseHash Sample.store Sample.element 0 Sample.scratch
       = Done (h', (Mem.MkSlice (Some 2%positive) 0 32 32, 1 + 32, None)) /\
     dom h' = dom Sample.store /\
     Mem.elems h' (Mem.MkSlice (Some 2%positive) 0 32 32) = Sample.hash_bytes) /\
  (exists h',
     ParseHash Sample.store Sample.element 0 Mem.nil
       = Done (h', (Mem.MkSlice (Some (fresh (dom Sample.store))) 0 32 32, 1 + 32, None)) /\
     (fresh (dom Sample.store) ∉ dom Sample.store) /\
     dom h' = {[fresh (dom Sample.store)]} ∪ dom Sample.store /\
     h' !! fresh (dom Sample.store) = Some Sample.hash_bytes).
Proof.
  assert (Hpay : Mem.valid Sample.store Sample.element).
  { unfold Mem.valid, GoInt.max_alloc. cbn. split; [lia | split; [lia |]].
    eexists. split; [reflexivity |]. cbn. lia. }
  assert (Hbuf : Mem.valid Sample.store Sample.scratch).
  { unfold Mem.valid, GoInt.max_alloc. cbn. split; [lia | split; [lia |]].
    eexists. split; [reflexivity |]. cbn. lia. }
  assert (Hnil : Mem.valid Sample.store Mem.nil).
  { unfold Mem.valid, GoInt.max_alloc. cbn. lia. }
  assert (Hprefix : ParsePrefix (Mem.view Sample.store Sample.element) 0
                    = Done (1, 32, false, None)) by (vm_compute; reflexivity).
  assert (Hfit : 1 + 32 <= Mem.slen Sample.element) by (cbn; lia).
  assert (Hwin : window (Mem.view Sample.store Sample.element) 1 32 = Sample.hash_bytes)
    by (vm_compute; reflexivity).
  split; [exact Hpay | split; [exact Hbuf | split; [exact Hnil | split; [exact Hprefix |]]]].
  split.
  - destruct (ParseHash_buffer_reuse Sample.store Sample.element Sample.scratch 0 1
                Hpay Hbuf Hprefix Hfit) as [Hreuse _].
    destruct (Hreuse ltac:(cbn; lia)) as (h' & Hrun & Hdom & _ & Helems & _).
    exists h'. split; [exact Hrun |]. split; [exact Hdom |].
    rewrite <- Hwin. exact Helems.
  - destruct (ParseHash_buffer_reuse Sample.store Sample.element Mem.nil 0 1
                Hpay Hnil Hprefix Hfit) as [_ Hfresh].
    destruct (Hfresh ltac:(cbn; lia)) as (h' & Hrun & Hnew & Hdom & _ & Harr & _).
    exists h'. split; [exact Hrun |]. split; [exact Hnew |]. split; [exact Hdom |].
    rewrite <- Hwin. exact Harr.
Defined.

(** Beside C1: when headerEnd + payloadLength overflows [int] the sum wraps to
    a negative number and neither decoder reports the end of the payload; the
    length is then refused as too long. *)
Lemma end_check_wraps :
  let payload := of_list [xbf; x7f; xff; xff; xff; xff; xff; xff; xff] in
  ParsePrefix payload 0 = Done (9, 2 ^ 63 - 1, false, None) /\
  U64 payload 0 = Done (0, 0, Some (ErrU64TooLong (2 ^ 63 - 1))) /\
  U256 payload 0 0 = Done (0, (0, Some (ErrU256TooLong (2 ^ 63 - 1)))).
Proof. vm_compute. repeat split; reflexivity. Qed.

(** [ensureEnoughSize]: for a size within bounds it returns a slice of
    exactly that length.  With enough capacity the store is untouched and the
    slice is the argument with its length reset, so whatever the array held
    shows through; otherwise the slice is a new array of zeros, nothing of
    the old contents is carried over, and the old arrays stay as they were. *)
Theorem ensureEnoughSize_result (h : Mem.heap) (in_ : Mem.slice) (size : Z) :
  Mem.valid h in_ -> 0 <= size <= GoInt.max_alloc ->
  exists h' out,
    ensureEnoughSize h in_ size = Done (h', out) /\
    Mem.valid h' out /\ Mem.slen out = size /\
    (size <= Mem.scap in_ ->
       h' = h /\ Mem.base out = Mem.base in_ /\ Mem.off out = Mem.off in_ /\
       Mem.scap out = Mem.scap in_ /\
       Mem.elems h' out = take (Z.to_nat size) (cells (Mem.view h in_))) /\
    (Mem.scap in_ < size ->
       Mem.base out = Some (fresh (dom h)) /\ Mem.scap out = size /\
       Mem.elems h' out = replicate (Z.to_nat size) x00 /\
       forall l, l ∈ dom h -> h' !! l = h !! l).
Proof.
  intros (Hl & Hc & Hb) Hsize. unfold ensureEnoughSize, Mem.make, Mem.reslice.
  destruct (Mem.scap in_ <? size) eqn:Hcmp.
  - replace (size <? 0) with false by lia. eexists _, _. split; [reflexivity |].
    set (l := fresh (dom h)).
    assert (Hfresh : h !! l = None) by (apply not_elem_of_dom, is_fresh).
    split; [| split; [reflexivity | split; [lia |]]].
    + unfold Mem.valid. cbn. split; [lia |]. split; [lia |].
      eexists. rewrite lookup_insert_eq. split; [reflexivity |].
      rewrite length_replicate. lia.
    + intros _. split; [reflexivity |]. split; [reflexivity |]. split.
      * unfold Mem.elems, Mem.view, Mem.array. cbn. rewrite lookup_insert_eq. cbn.
        rewrite !take_ge
          by (rewrite ?length_take, ?length_drop, ?length_replicate; lia).
        reflexivity.
      * intros l' Hl'. apply lookup_insert_ne. intros <-.
        apply not_elem_of_dom in Hfresh. contradiction.
  - replace (0 <=? 0) with true by lia. replace (0 <=? size) with true by lia.
    replace (size <=? Mem.scap in_) with true by lia. cbn.
    eexists _, _. split; [reflexivity |].
    split; [| split; [cbn; lia | split; [| lia]]].
    + unfold Mem.valid. cbn. split; [lia |]. split; [lia |].
      destruct (Mem.base in_) as [l |]; [| lia].
      destruct Hb as (a & Ha & Hoff & Hin). exists a. split; [exact Ha |]. lia.
    + intros _. cbn. split; [reflexivity |]. split; [reflexivity |].
      split; [lia |]. split; [lia |].
      unfold Mem.elems, Mem.view, Mem.array. cbn.
      rewrite Z.add_0_r, !Z.sub_0_r. reflexivity.
Qed.

Lemma ensureEnoughSize_result_witness :
  Mem.valid Sample.store Sample.scratch /\
  exists h' out,
    ensureEnoughSize Sample.store Sample.scratch 32 = Done (h', out) /\
    Mem.slen out = 32 /\ h' = Sample.store /\
    Mem.elems h' out = replicate 32 xff.
Proof.
  assert (Hbuf : Mem.valid Sample.store Sample.scratch).
  { unfold Mem.valid, GoInt.max_alloc. cbn. split; [lia | split; [lia |]].
    eexists. split; [reflexivity |]. cbn. lia. }
  split; [exact Hbuf |].
  destruct (ensureEnoughSize_result Sample.store Sample.scratch 32 Hbuf
              ltac:(unfold GoInt.max_alloc; lia))
    as (h' & out & Hrun & _ & Hlen & Hreuse & _).
  destruct (Hreuse ltac:(cbn; lia)) as (Hh & _ & _ & _ & Helems).
  exists h', out. split; [exact Hrun |]. split; [exact Hlen |]. split; [exact Hh |].
  rewrite Helems. vm_compute. reflexivity.
Defined.

(** [ParseHash] writes 32 cells and no more: on a successful call that
    reuses the caller's buffer, the array behind it keeps its length, every
    cell before the slice's offset or from offset + 32 on keeps its value,
    and every other array of the store is unchanged. *)
Theorem ParseHash_writes_32_cells
    (h : Mem.heap) (payload hashbuf : Mem.slice) (pos : Z)
    (h' : Mem.heap) (out : Mem.slice) (np : Z) (lb : positive) (b : list byte) :
  Mem.valid h payload -> Mem.valid h hashbuf ->
  32 <= Mem.scap hashbuf -> Mem.base hashbuf = Some lb -> h !! lb = Some b ->
  ParseHash h payload pos hashbuf = Done (h', (out, np, None)) ->
  exists b',
    h' !! lb = Some b' /\ length b' = length b /\
    (forall i : nat,
       (i < Z.to_nat (Mem.off hashbuf) \/ Z.to_nat (Mem.off hashbuf) + 32 <= i)%nat ->
       b' !! i = b !! i) /\
    (forall l, l <> lb -> h' !! l = h !! l).
Proof.
  intros Hpay Hbuf Hcap Hbase Hb Hrun.
  destruct (ParseHash_success_inv h payload hashbuf pos Hpay h' out np Hrun)
    as (p & Hprefix & Hfit).
  rewrite (ParseHash_reuse_store h payload hashbuf pos p Hpay Hprefix Hfit lb b
             Hcap Hbase Hb) in Hrun.
  injection Hrun as <- _ _.
  destruct (payload_array h payload pos p Hpay Hprefix Hfit)
    as (lp & a & Hlp & Ha & _).
  destruct (payload_elems h payload pos p Hpay Hprefix Hfit h lp a Hlp Ha Ha)
    as [_ Hlen].
  eexists. split; [apply lookup_insert_eq |]. split; [apply length_inserts |]. split.
  - intros i [Hlt | Hge].
    + apply list_lookup_inserts_lt. exact Hlt.
    + apply list_lookup_inserts_ge. rewrite Hlen. exact Hge.
  - intros l Hne. apply lookup_insert_ne. congruence.
Qed.

Lemma ParseHash_writes_32_cells_witness :
  Mem.valid Sample.store Sample.element /\ Mem.valid Sample.store Sample.scratch /\
  exists h' b',
    ParseHash Sample.store Sample.element 0 Sample.scratch
      = Done (h', (Mem.MkSlice (Some 2%positive) 0 32 32, 33, None)) /\
    h' !! 2%positive = Some b' /\ length b' = 32%nat /\
    h' !! 1%positive = Sample.store !! 1%positive.
Proof.
  assert (Hpay : Mem.valid Sample.store Sample.element).
  { unfold Mem.valid, GoInt.max_alloc. cbn. split; [lia | split; [lia |]].
    eexists. split; [reflexivity |]. cbn. lia. }
  assert (Hbuf : Mem.valid Sample.store Sample.scratch).
  { unfold Mem.valid, GoInt.max_alloc. cbn. split; [lia | split; [lia |]].
    eexists. split; [reflexivity |]. cbn. lia. }
  split; [exact Hpay | split; [exact Hbuf |]].
  destruct (ParseHash Sample.store Sample.element 0 Sample.scratch)
    as [[h' [[out np] [e |]]] |] eqn:Hrun; try (vm_compute in Hrun; discriminate).
  destruct (ParseHash_writes_32_cells _ _ _ _ _ _ _ 2%positive (replicate 32 xff)
              Hpay Hbuf ltac:(cbn; lia) eq_refl eq_refl Hrun)
    as (b' & Hb' & Hlen & _ & Hother).
  assert (Hout : out = Mem.MkSlice (Some 2%positive) 0 32 32)
    by (vm_compute in Hrun; congruence).
  assert (Hnp : np = 33) by (vm_compute in Hrun; congruence).
  subst out np. exists h', b'. split; [reflexivity |]. split; [exact Hb' |].
  split; [exact Hlen |]. apply Hother. discriminate.
Defined.

(** Decoding the same element again into the slice that [ParseHash]
    returned, when that slice does not share the payload's array, allocates
    nothing and changes nothing: it returns the same slice, the same position
    and the same store. *)
Theorem ParseHash_again
    (h : Mem.heap) (payload hashbuf : Mem.slice) (pos : Z)
    (h' : Mem.heap) (out : Mem.slice) (np : Z) :
  Mem.valid h payload -> Mem.valid h hashbuf ->
  ParseHash h payload pos hashbuf = Done (h', (out, np, None)) ->
  Mem.base out <> Mem.base payload ->
  ParseHash h' payload pos out = Done (h', (out, np, None)).
Proof.
  intros Hpay Hbuf Hrun Hsep.
  destruct (ParseHash_success_inv h payload hashbuf pos Hpay h' out np Hrun)
    as (p & Hprefix & Hfit).
  destruct (payload_array h payload pos p Hpay Hprefix Hfit)
    as (lp & a & Hlp & Ha & _).
  assert (Hwlen : length (window (Mem.view h payload) p 32) = 32%nat).
  { destruct (payload_elems h payload pos p Hpay Hprefix Hfit h lp a Hlp Ha Ha)
      as [_ Hw]. exact Hw. }
  destruct (Z.lt_ge_cases (Mem.scap hashbuf) 32) as [Hsmall | Hbig].
  - rewrite (ParseHash_fresh_store h payload hashbuf pos p Hpay Hprefix Hfit Hsmall)
      in Hrun.
    injection Hrun as <- <- <-.
    set (l := fresh (dom h)) in *. set (bs := window (Mem.view h payload) p 32) in *.
    assert (Hl : h !! l = None) by (apply not_elem_of_dom, is_fresh).
    assert (Hsame : forall l', Mem.base payload = Some l' ->
                      (<[l:=bs]> h) !! l' = h !! l').
    { intros l' Hl'. apply lookup_insert_ne. congruence. }
    pose proof (view_agree h _ payload Hsame) as Hview.
    pose proof (valid_agree h _ payload Hsame Hpay) as Hpay'.
    assert (Hprefix' : ParsePrefix (Mem.view (<[l:=bs]> h) payload) pos
                       = Done (p, 32, false, None)) by (rewrite Hview; exact Hprefix).
    rewrite (ParseHash_reuse_store _ payload _ pos p Hpay' Hprefix' Hfit l bs);
      [| cbn; lia | reflexivity | apply lookup_insert_eq].
    rewrite Hview. fold bs. cbn [Mem.off Mem.scap].
    change (Z.to_nat 0) with 0%nat. rewrite list_inserts_whole by reflexivity.
    rewrite insert_insert_eq. reflexivity.
  - destruct Hbuf as (Hbl & Hbc & Hbb).
    destruct (Mem.base hashbuf) as [lb |] eqn:Hbase; [| lia].
    destruct Hbb as (b & Hb & Hboff & Hbin).
    rewrite (ParseHash_reuse_store h payload hashbuf pos p Hpay Hprefix Hfit lb b
               Hbig Hbase Hb) in Hrun.
    injection Hrun as <- <- <-. cbn in Hsep.
    set (bs := window (Mem.view h payload) p 32) in *.
    set (b1 := list_inserts (Z.to_nat (Mem.off hashbuf)) bs b).
    assert (Hsame : forall l', Mem.base payload = Some l' ->
                      (<[lb:=b1]> h) !! l' = h !! l').
    { intros l' Hl'. apply lookup_insert_ne. congruence. }
    pose proof (view_agree h _ payload Hsame) as Hview.
    pose proof (valid_agree h _ payload Hsame Hpay) as Hpay'.
    assert (Hprefix' : ParsePrefix (Mem.view (<[lb:=b1]> h) payload) pos
                       = Done (p, 32, false, None)) by (rewrite Hview; exact Hprefix).
    rewrite (ParseHash_reuse_store _ payload _ pos p Hpay' Hprefix' Hfit lb b1);
      [| cbn; lia | reflexivity | apply lookup_insert_eq].
    rewrite Hview. fold bs. cbn [Mem.off Mem.scap]. unfold b1.
    rewrite list_inserts_idem, insert_insert_eq. reflexivity.
Qed.

Lemma ParseHash_again_witness :
  Mem.valid Sample.store Sample.element /\ Mem.valid Sample.store Mem.nil /\
  exists h' out,
    ParseHash Sample.store Sample.element 0 Mem.nil = Done (h', (out, 33, None)) /\
    ParseHash h' Sample.element 0 out = Done (h', (out, 33, None)).
Proof.
  assert (Hpay : Mem.valid Sample.store Sample.element).
  { unfold Mem.valid, GoInt.max_alloc. cbn. split; [lia | split; [lia |]].
    eexists. split; [reflexivity |]. cbn. lia. }
  assert (Hbuf : Mem.valid Sample.store Mem.nil).
  { unfold Mem.valid, GoInt.max_alloc. cbn. lia. }
  split; [exact Hpay | split; [exact Hbuf |]].
  destruct (ParseHash Sample.store Sample.element 0 Mem.nil)
    as [[h' [[out np] [e |]]] |] eqn:Hrun; try (vm_compute in Hrun; discriminate).
  assert (Hnp : np = 33) by (vm_compute in Hrun; congruence).
  assert (Hout : Mem.base out <> Mem.base Sample.element).
  { vm_compute in Hrun. injection Hrun as _ <- _. discriminate. }
  subst np. exists h', out. split; [reflexivity |].
  exact (ParseHash_again _ _ _ _ _ _ _ Hpay Hbuf Hrun Hout).
Defined.

(** [ParseHash] panics only where [ParsePrefix] does: once the header has
    been read, every outcome is a return, with or without error, whatever the
    payload length that was parsed. *)
Theorem ParseHash_panics_iff
    (h : Mem.heap) (payload hashbuf : Mem.slice) (pos : Z) :
  Mem.valid h payload -> Mem.valid h hashbuf ->
  ParseHash h payload pos hashbuf = Panics <->
  ParsePrefix (Mem.view h payload) pos = Panics.
Proof.
  intros Hpay Hbuf.
  destruct (ParsePrefix (Mem.view h payload) pos) as [[[[p d] l] e] |] eqn:Hprefix.
  - split; [| discriminate]. intros Hrun. exfalso. revert Hrun.
    destruct (Z.eq_dec d 32) as [-> | Hd].
    + destruct e as [e |]; [unfold ParseHash; rewrite Hprefix; discriminate |].
      destruct l; [unfold ParseHash; rewrite Hprefix; discriminate |].
      destruct (Z.le_gt_cases (p + 32) (Mem.slen payload)) as [Hfit | Hout].
      * destruct (ParseHash_copy h payload hashbuf pos p Hpay Hbuf Hprefix Hfit)
          as (h' & -> & _). discriminate.
      * unfold ParseHash. rewrite Hprefix. cbn.
        rewrite (window_sum_exact h payload pos Hpay _ _ _ _ Hprefix) by (right; lia).
        replace (p + 32 >? Mem.slen payload) with true by lia. discriminate.
    + unfold ParseHash. rewrite Hprefix. cbn.
      destruct e as [e |]; [discriminate |]. destruct l; [discriminate |].
      destruct (GoInt.add p d >? Mem.slen payload); [discriminate |].
      replace (d =? 32) with false by lia. discriminate.
  - unfold ParseHash. rewrite Hprefix. cbn. split; reflexivity.
Qed.

Lemma ParseHash_panics_iff_witness :
  Mem.valid Sample.store Sample.element /\ Mem.valid Sample.store Sample.scratch /\
  ParseHash Sample.store Sample.element 33 Sample.scratch = Panics.
Proof.
  assert (Hpay : Mem.valid Sample.store Sample.element).
  { unfold Mem.valid, GoInt.max_alloc. cbn. split; [lia | split; [lia |]].
    eexists. split; [reflexivity |]. cbn. lia. }
  assert (Hbuf : Mem.valid Sample.store Sample.scratch).
  { unfold Mem.valid, GoInt.max_alloc. cbn. split; [lia | split; [lia |]].
    eexists. split; [reflexivity |]. cbn. lia. }
  split; [exact Hpay | split; [exact Hbuf |]].
  apply (ParseHash_panics_iff _ _ _ 33 Hpay Hbuf). reflexivity.
Defined.

(** [U64], rejections in the order of the code, for a string element whose
    parsed length is at most 2^62: a window that reaches or passes the end of
    the buffer gives "unexpected end of payload"; otherwise more than 8 bytes
    give the too-long error with the length; otherwise a zero first payload
    byte gives the leading-zeros error with the payload. *)
Theorem U64_rejects (payload : bytes) (pos p d : Z) :
  wf payload ->
  ParsePrefix payload pos = Done (p, d, false, None) ->
  d <= 2 ^ 62 ->
  (len payload <= p + d -> U64 payload pos = Done (0, 0, Some ErrUnexpectedEnd)) /\
  (p + d < len payload -> 8 < d ->
     U64 payload pos = Done (0, 0, Some (ErrU64TooLong d))) /\
  (p + d < len payload -> 0 < d <= 8 ->
     forall x, index payload p = Done x -> byte_val x = 0 ->
     U64 payload pos = Done (0, 0, Some (ErrLeadingZeros (window payload p d)))).
Proof.
  intros Hwf Hprefix Hd.
  destruct (ParsePrefix_header payload Hwf pos p d false None Hprefix)
    as (Hpos & Hp & _ & _).
  pose proof (header_sum payload Hwf pos p d false None Hprefix Hd) as Hsum.
  split; [| split].
  - intros Hend. unfold U64. rewrite Hprefix. cbn. rewrite Hsum.
    now replace (p + d >=? len payload) with true by lia.
  - intros Hfit Hlong. unfold U64. rewrite Hprefix. cbn. rewrite Hsum.
    replace (p + d >=? len payload) with false by lia.
    now replace (d >? 8) with true by lia.
  - intros Hfit Hlen x Hx Hz. unfold U64. rewrite Hprefix. cbn. rewrite Hsum.
    replace (p + d >=? len payload) with false by lia.
    replace (d >? 8) with false by lia.
    destruct (payload_read payload Hwf p d ltac:(lia) ltac:(lia)) as [_ Hnonneg].
    destruct (Hnonneg ltac:(lia)) as (-> & _ & Hlead).
    destruct Hlead as [(_ & y & t & Hy & _ & ->) | (? & _)]; [| lia].
    assert (y = x) as -> by congruence. cbn. rewrite Hz. reflexivity.
Qed.

Lemma U64_rejects_witness :
  wf (of_list [x89; x01; x02; x03; x04; x05; x06; x07; x08; x09; x00]) /\
  U64 (of_list [x89; x01; x02; x03; x04; x05; x06; x07; x08; x09; x00]) 0
    = Done (0, 0, Some (ErrU64TooLong 9)).
Proof.
  assert (Hwf : wf (of_list [x89; x01; x02; x03; x04; x05; x06; x07; x08; x09; x00])).
  { unfold wf, cap, GoInt.max_alloc. cbn. lia. }
  split; [exact Hwf |].
  destruct (U64_rejects _ 0 1 9 Hwf eq_refl ltac:(lia)) as (_ & Hlong & _).
  apply Hlong; [cbn |]; lia.
Defined.

(** [U256], rejections in the order of the code, for a string element whose
    parsed length is at most 2^62: a window that passes the end of the buffer
    gives "unexpected end of payload"; otherwise more than 32 bytes give the
    too-long error with the length; otherwise a zero first payload byte gives
    the leading-zeros error with the payload.  In each case [x] is kept. *)
Theorem U256_rejects (payload : bytes) (pos p d x : Z) :
  wf payload ->
  ParsePrefix payload pos = Done (p, d, false, None) ->
  d <= 2 ^ 62 ->
  (len payload < p + d -> U256 payload pos x = Done (x, (0, Some ErrUnexpectedEnd))) /\
  (p + d <= len payload -> 32 < d ->
     U256 payload pos x = Done (x, (0, Some (ErrU256TooLong d)))) /\
  (p + d <= len payload -> 0 < d <= 32 ->
     forall y, index payload p = Done y -> byte_val y = 0 ->
     U256 payload pos x = Done (x, (0, Some (ErrLeadingZeros (window payload p d))))).
Proof.
  intros Hwf Hprefix Hd.
  destruct (ParsePrefix_header payload Hwf pos p d false None Hprefix)
    as (Hpos & Hp & _ & _).
  pose proof (header_sum payload Hwf pos p d false None Hprefix Hd) as Hsum.
  split; [| split].
  - intros Hend. unfold U256. rewrite Hprefix. cbn. rewrite Hsum.
    now replace (p + d >? len payload) with true by lia.
  - intros Hfit Hlong. unfold U256. rewrite Hprefix. cbn. rewrite Hsum.
    replace (p + d >? len payload) with false by lia.
    now replace (d >? 32) with true by lia.
  - intros Hfit Hlen y Hy Hz. unfold U256. rewrite Hprefix. cbn. rewrite Hsum.
    replace (p + d >? len payload) with false by lia.
    replace (d >? 32) with false by lia.
    destruct (payload_read payload Hwf p d ltac:(lia) ltac:(lia)) as [_ Hnonneg].
    destruct (Hnonneg ltac:(lia)) as (-> & _ & Hlead).
    destruct Hlead as [(_ & z & t & Hzb & _ & ->) | (? & _)]; [| lia].
    assert (z = y) as -> by congruence. cbn. rewrite Hz. reflexivity.
Qed.

Lemma U256_rejects_witness :
  wf (of_list [x82; x00; x01]) /\
  U256 (of_list [x82; x00; x01]) 0 7 = Done (7, (0, Some (ErrLeadingZeros [x00; x01]))).
Proof.
  assert (Hwf : wf (of_list [x82; x00; x01])).
  { unfold wf, cap, GoInt.max_alloc. cbn. lia. }
  split; [exact Hwf |].
  destruct (U256_rejects _ 0 1 2 7 Hwf eq_refl ltac:(lia)) as (_ & _ & Hzero).
  apply (Hzero ltac:(cbn; lia) ltac:(lia) x00); reflexivity.
Defined.

(** [ParseHash] reports a payload window that passes the end of the buffer
    before it looks at the length: such an element gives the
    unexpected-end error even when its length is 32, and the store is left
    as it was. *)
Theorem ParseHash_end_before_length
    (h : Mem.heap) (payload hashbuf : Mem.slice) (pos p d : Z) :
  Mem.valid h payload ->
  ParsePrefix (Mem.view h payload) pos = Done (p, d, false, None) ->
  d <= 2 ^ 62 -> Mem.slen payload < p + d ->
  ParseHash h payload pos hashbuf = Done (h, (Mem.nil, 0, Some ErrHashUnexpectedEnd)) /\
  kind ErrHashUnexpectedEnd = UnexpectedEndOfPayload.
Proof.
  intros Hpay Hprefix Hd Hend. split; [| reflexivity].
  destruct (view_valid h payload Hpay) as (Hwf & _ & _).
  unfold ParseHash. rewrite Hprefix. cbn.
  rewrite (header_sum _ Hwf pos p d false None Hprefix Hd).
  now replace (p + d >? Mem.slen payload) with true by lia.
Qed.

Lemma ParseHash_end_before_length_witness :
  Mem.valid Sample.store (Mem.MkSlice (Some 1%positive) 0 32 33) /\
  ParseHash Sample.store (Mem.MkSlice (Some 1%positive) 0 32 33) 0 Sample.scratch
    = Done (Sample.store, (Mem.nil, 0, Some ErrHashUnexpectedEnd)) /\
  kind ErrHashUnexpectedEnd = UnexpectedEndOfPayload.
Proof.
  assert (Hpay : Mem.valid Sample.store (Mem.MkSlice (Some 1%positive) 0 32 33)).
  { unfold Mem.valid, GoInt.max_alloc. cbn. split; [lia | split; [lia |]].
    eexists. split; [reflexivity |]. cbn. lia. }
  split; [exact Hpay |].
  apply (ParseHash_end_before_length _ _ _ 0 1 32 Hpay);
    [vm_compute; reflexivity | lia | cbn; lia].
Defined.
